(** * nl-syntree: dependency-parse syntax trees and triple matching

    A shallow embedding of

    - [library/document.py]   ([Tree], [Sentence], [Document], the
      pre-order [walk] and the printable tree),
    - [library/operations.py] ([find_generic_triples] and
      [find_generic_triples_multi_criteria]),
    - [providers/google_cloud.py] ([_create_tree],
      [create_nlst_document_from_response], [find_verb_triples],
      [verb_filter]),

    followed by the properties of the specification, each stated against
    these definitions. *)

From stdpp Require Import base numbers list option strings gmap pretty.
From Stdlib Require Import ZArith Lia.

Set Warnings "-register-all".

Open Scope string_scope.
Open Scope list_scope.
Open Scope Z_scope.

(** ** Python runtime outcomes *)

(** The exceptions the embedded code can raise. *)
Inductive exn : Set :=
  | TypeError (msg : string)
  | IndexError
  | KeyError
  | ValueError
  | RecursionError.

(** The outcome of a call: a value, or a raised exception. *)
Inductive result (A : Type) : Type :=
  | Ok (a : A)
  | Raise (e : exn).
Arguments Ok {A} a.
Arguments Raise {A} e.

#[global] Instance result_ret : MRet result := fun _ a => Ok a.
#[global] Instance result_bind : MBind result := fun _ _ k r =>
  match r with
  | Ok a => k a
  | Raise e => Raise e
  end.

(** Evaluates [f] on every element from left to right and stops at the first
    exception, as a [for] loop or a list comprehension does. *)
Fixpoint mapR {A B} (f : A → result B) (l : list A) : result (list B) :=
  match l with
  | [] => Ok []
  | a :: l' => b ← f a; bs ← mapR f l'; Ok (b :: bs)
  end.

(** A generator run to exhaustion: the values it yielded, in order, and how
    it stopped ([None]: it returned; [Some e]: it raised [e] after the last
    yielded value). *)
Record gen (A : Type) : Type := Gen {
  yielded : list A;
  raised : option exn
}.
Arguments Gen {A} _ _.
Arguments yielded {A} _.
Arguments raised {A} _.

(** [for v in g1: yield v] followed by [for v in g2: yield v]: the second
    generator is only started when the first one returned. *)
Definition gen_seq {A} (g1 g2 : gen A) : gen A :=
  match raised g1 with
  | None => Gen (yielded g1 ++ yielded g2) (raised g2)
  | Some e => Gen (yielded g1) (Some e)
  end.

Definition gen_empty {A} : gen A := Gen [] None.

(** Re-yields every generator of the list in turn. *)
Fixpoint gen_chain {A} (gs : list (gen A)) : gen A :=
  match gs with
  | [] => gen_empty
  | g :: gs' => gen_seq g (gen_chain gs')
  end.

(** ** library/document.py *)

Module document.

(** [class Tree]: the attributes are those set by [__init__]; [index] may be
    left unset ([None]); the two mappings are optional dictionaries from
    codes to display names. *)
Inductive Tree : Type := mkTree {
  index : option Z;
  label : Z;
  content : string;
  lemma : string;
  pos_tag : Z;
  children : list Tree;
  pos_tag_mapping : option (gmap Z string);
  label_mapping : option (gmap Z string)
}.

(** [Tree.walk]: [yield self], then every node of every child's walk. *)
Fixpoint walk (self : Tree) : list Tree :=
  match self with
  | mkTree _ _ _ _ _ cs _ _ => self :: flat_map walk cs
  end.

(** [Tree.filtered_walk]: the predicate receives the node [walk] was called
    on and the candidate. *)
Definition filtered_walk (self : Tree) (filter_func : Tree → Tree → bool)
  : list Tree :=
  List.filter (filter_func self) (walk self).

(** [str(x)] for an integer, and for an attribute that may be [None]. *)
Definition str_int (z : Z) : string := pretty z.

Definition str_opt_int (o : option Z) : string :=
  match o with
  | Some z => str_int z
  | None => "None"
  end.

(** [sep.join(l)]. *)
Definition join (sep : string) (l : list string) : string :=
  String.concat sep l.

(** [s * n]: the empty string when [n <= 0]. *)
Definition str_mul (s : string) (n : Z) : string :=
  String.concat "" (replicate (Z.to_nat n) s).

(** [mapping[code] if mapping else code], then formatted with [{}]: a
    missing or empty dictionary is falsy and the raw code is shown; a
    non-empty dictionary without the key raises [KeyError]. *)
Definition display_code (mapping : option (gmap Z string)) (code : Z)
  : result string :=
  match mapping with
  | Some m =>
      if decide (m = ∅) then Ok (str_int code)
      else match m !! code with
           | Some name => Ok name
           | None => Raise KeyError
           end
  | None => Ok (str_int code)
  end.

(** [Tree.get_string_repr]. *)
Definition get_string_repr (self : Tree) (verbose : bool) : result string :=
  pos_tag ← display_code (pos_tag_mapping self) (pos_tag self);
  label ← display_code (label_mapping self) (label self);
  if verbose then
    Ok ("Tree(index=" +:+ str_opt_int (index self) +:+ ",label='" +:+ label
        +:+ "', content='" +:+ content self +:+ "', lemma='" +:+ lemma self
        +:+ "', pos_tag='" +:+ pos_tag +:+ "', children=["
        +:+ join "," (map (fun t => str_opt_int (index t)) (children self))
        +:+ "])")
  else
    Ok (content self +:+ " (pos_tag=" +:+ pos_tag +:+ ", label=" +:+ label
        +:+ ")").

(** The prefix computed in [_get_tree_statements]:
    [prefix = '' if depth <= 2 else '   ' * (depth - 2)] and then
    [prefix += '' if depth == 1 else '|- ']. *)
Definition line_prefix (depth : Z) : string :=
  (if decide (depth ≤ 2) then "" else str_mul "   " (depth - 2))
  +:+ (if decide (depth = 1) then "" else "|- ").

(** The loop [for n in self.children: statements += ...], where [visit]
    is the recursive call on a child. *)
Definition extend_statements (visit : Tree → result (list string))
  : list Tree → list string → result (list string) :=
  fix loop (ns : list Tree) (statements : list string) :=
    match ns with
    | [] => Ok statements
    | n :: ns' => more ← visit n; loop ns' (statements ++ more)
    end.

(** [Tree._get_tree_statements]. *)
Fixpoint _get_tree_statements (self : Tree) (max_depth : option Z)
    (depth : Z) (verbose : bool) : result (list string) :=
  if decide (max_depth = Some 0) then Ok []
  else
    let next_depth := depth + 1 in
    let next_max_depth := (fun m => m - 1) <$> max_depth in
    repr ← get_string_repr self verbose;
    match self with
    | mkTree _ _ _ _ _ cs _ _ =>
        extend_statements
          (fun n => _get_tree_statements n next_max_depth next_depth verbose)
          cs [line_prefix depth +:+ repr]
    end.

(** The line separator ['\n']. *)
Definition newline : string := String (Ascii.ascii_of_nat 10) EmptyString.

(** [Tree.get_printable_tree]. *)
Definition get_printable_tree (self : Tree) (max_depth : option Z)
    (verbose : bool) : result string :=
  statements ← _get_tree_statements self max_depth 1 verbose;
  Ok (join newline statements).

(** [class Sentence]. *)
Record Sentence : Type := mkSentence {
  s_content : string;
  root : Tree
}.

(** [Sentence.get_string_repr]. *)
Definition Sentence_get_string_repr (self : Sentence) (verbose : bool)
  : result string :=
  tree ← get_printable_tree (root self) None verbose;
  Ok ("Sentence: '" +:+ s_content self +:+ "'" +:+ newline +:+ tree).

(** [class Document]. *)
Record Document : Type := mkDocument {
  language : string;
  sentences : list Sentence
}.

(** [Document.get_string_repr]. *)
Definition Document_get_string_repr (self : Document) (verbose : bool)
  : result string :=
  let ret :=
    "Document (" +:+ pretty (length (sentences self)) +:+ " sentences)"
    +:+ newline in
  (fix loop (ss : list Sentence) (ret : string) : result string :=
     match ss with
     | [] => Ok ret
     | s :: ss' =>
         repr ← Sentence_get_string_repr s verbose;
         loop ss' (ret +:+ repr +:+ newline +:+ str_mul "-" 20 +:+ newline)
     end) (sentences self) ret.

End document.
Export document.

(** ** library/operations.py *)

(** A value passed as [doc_or_sentence]: the two classes the matchers
    accept, and two of the values they do not. *)
Inductive pyobj : Type :=
  | PyDocument (d : Document)
  | PySentence (s : Sentence)
  | PyTree (t : Tree)
  | PyNone.

Definition triple : Type := Tree * Tree * Tree.

(** [itertools.product] applied to the pools, after the equivalent code of the Python
    documentation: [result = [[]]], then for every pool
    [result = [x + [y] for x in result for y in pool]]. *)
Definition product {A} (pools : list (list A)) : list (list A) :=
  fold_left
    (fun result pool => flat_map (fun x => map (fun y => x ++ [y]) pool) result)
    pools [[]].

Module operations.

(** The [isinstance] dispatch at the head of [find_generic_triples]. *)
Definition sentences_of (doc_or_sentence : pyobj) : result (list Sentence) :=
  match doc_or_sentence with
  | PyDocument d => Ok (sentences d)
  | PySentence s => Ok [s]
  | _ => Raise (TypeError "doc_or_sentence")
  end.

(** The loop over [node.children] that fills [left_deps] and [right_deps]:
    a child is appended to [left_deps] when its label is [left_label],
    and otherwise ([elif]) to [right_deps] when its label is [right_label]. *)
Definition collect_deps (left_label right_label : Z) (cs : list Tree)
  : list Tree * list Tree :=
  fold_left
    (fun deps child =>
       if decide (label child = left_label) then (deps.1 ++ [child], deps.2)
       else if decide (label child = right_label) then (deps.1, deps.2 ++ [child])
       else deps)
    cs ([], []).

(** One iteration of the loop over [sentence.root.walk()]. *)
Definition node_triples (left_label head_pos_tag right_label : Z) (node : Tree)
  : list triple :=
  if decide (pos_tag node ≠ head_pos_tag) then []
  else
    let deps := collect_deps left_label right_label (children node) in
    flat_map (fun left_dep =>
      flat_map (fun right_dep => [(left_dep, node, right_dep)]) deps.2) deps.1.

(** [find_generic_triples]. The type test runs when the generator is first
    advanced, before anything is yielded. *)
Definition find_generic_triples (doc_or_sentence : pyobj)
    (left_label head_pos_tag right_label : Z) : gen triple :=
  match sentences_of doc_or_sentence with
  | Raise e => Gen [] (Some e)
  | Ok sentences =>
      Gen (flat_map (fun sentence =>
             flat_map (node_triples left_label head_pos_tag right_label)
                      (walk (root sentence)))
             sentences) None
  end.

(** [find_generic_triples_multi_criteria]: one inner generator per element
    of the product, each unpacked as [left, head, right]. *)
Definition find_generic_triples_multi_criteria (doc_or_sentence : pyobj)
    (left_labels head_pos_tags right_labels : list Z) : gen triple :=
  gen_chain
    (map (fun combo =>
            match combo with
            | [left_; head_; right_] =>
                find_generic_triples doc_or_sentence left_ head_ right_
            | _ => Gen [] (Some ValueError)
            end)
         (product [left_labels; head_pos_tags; right_labels])).

End operations.
Export operations.

(** ** providers/google_cloud.py *)

(** The codes of [google.cloud.language.enums] the module refers to. The
    library is not part of the repository: its codes are a parameter of the
    development. *)
Class enums : Type := {
  ROOT : Z;
  NSUBJ : Z;
  NSUBJPASS : Z;
  DOBJ : Z;
  POBJ : Z;
  PREP : Z;
  VERB : Z
}.

(** The codes of google-cloud-language 1.x, used in the examples. *)
Definition language_v1 : enums :=
  {| ROOT := 54; NSUBJ := 28; NSUBJPASS := 29; DOBJ := 18; POBJ := 36;
     PREP := 43; VERB := 11 |}.

(** A token of the analysis response, with the fields the module reads:
    [text.content], [lemma], [part_of_speech.tag],
    [dependency_edge.head_token_index] and [dependency_edge.label]. *)
Record Token : Type := mkToken {
  text_content : string;
  t_lemma : string;
  part_of_speech_tag : Z;
  head_token_index : Z;
  dependency_label : Z
}.

(** The response of [analyze_syntax], with the fields the module reads; a
    sentence is represented by its [text.content]. *)
Record Response : Type := mkResponse {
  r_language : string;
  r_sentences : list string;
  r_tokens : list Token
}.

(** [l[i]] on a sequence: a negative index counts from the end, and an index
    out of range raises [IndexError]. *)
Definition py_index {A} (l : list A) (i : Z) : result A :=
  let n := Z.of_nat (length l) in
  let j := if decide (i < 0) then i + n else i in
  if decide (0 ≤ j) then
    match l !! Z.to_nat j with
    | Some a => Ok a
    | None => Raise IndexError
    end
  else Raise IndexError.

(** [enumerate(l)]. *)
Definition enumerate {A} (l : list A) : list (nat * A) :=
  imap (fun i a => (i, a)) l.

Module google_cloud.
Section google_cloud.
Context {E : enums}.

(** [DEBUG = False]: the tracing branch of [_create_tree] is not taken. *)
Definition DEBUG : bool := false.

(** [_create_tree]. [limit] is the number of nested calls the interpreter
    still allows: a call made with none left raises [RecursionError]. *)
Fixpoint _create_tree (limit : nat) (token_index : Z) (all_tokens : list Token)
  : result Tree :=
  match limit with
  | O => Raise RecursionError
  | S limit' =>
      token ← py_index all_tokens token_index;
      children ←
        mapR (fun it => _create_tree limit' (Z.of_nat it.1) all_tokens)
             (filter (fun it => dependency_label it.2 ≠ ROOT
                                ∧ head_token_index it.2 = token_index)
                     (enumerate all_tokens));
      Ok {| index := Some token_index;
            label := dependency_label token;
            content := text_content token;
            lemma := t_lemma token;
            pos_tag := part_of_speech_tag token;
            children := children;
            pos_tag_mapping := None;
            label_mapping := None |}
  end.

(** [create_nlst_document_from_response]. *)
Definition create_nlst_document_from_response (limit : nat) (response : Response)
  : result Document :=
  let sentence_root_indices :=
    map fst (filter (fun it => dependency_label it.2 = ROOT)
                    (enumerate (r_tokens response))) in
  sentences ←
    mapR (fun sr =>
            root ← _create_tree limit (Z.of_nat sr.2) (r_tokens response);
            Ok {| s_content := sr.1; root := root |})
         (zip (r_sentences response) sentence_root_indices);
  Ok {| language := r_language response; sentences := sentences |}.

(** [find_verb_triples]. *)
Definition find_verb_triples (doc_or_sentence : pyobj)
    (active_voice passive_voice : bool) : gen triple :=
  gen_seq
    (if active_voice then
       find_generic_triples_multi_criteria doc_or_sentence
         [NSUBJ] [VERB] [DOBJ; PREP]
     else gen_empty)
    (if passive_voice then
       find_generic_triples_multi_criteria doc_or_sentence
         [NSUBJPASS] [VERB] [POBJ; PREP]
     else gen_empty).

(** [verb_filter]. *)
Definition verb_filter (tree current_node : Tree) : bool :=
  if decide (pos_tag current_node = VERB) then true else false.

End google_cloud.
End google_cloud.
Export google_cloud.

(** ** Specification-side definitions *)

(** The values the matchers accept. *)
Definition is_document_or_sentence (o : pyobj) : bool :=
  match o with
  | PyDocument _ | PySentence _ => true
  | _ => false
  end.

(** The cross product of two lists of dependents around a head, the left
    dependent in the outer loop. *)
Definition cross (left_deps : list Tree) (head : Tree) (right_deps : list Tree)
  : list triple :=
  flat_map (fun l => map (fun r => (l, head, r)) right_deps) left_deps.

(** The triples of one head as the specification words them: both sides are
    chosen among the direct children by their label alone. *)
Definition spec_head_triples (left_label head_pos_tag right_label : Z)
    (head : Tree) : list triple :=
  if decide (pos_tag head = head_pos_tag) then
    cross (filter (fun c => label c = left_label) (children head)) head
          (filter (fun c => label c = right_label) (children head))
  else [].

(** The triples of one head with the right side restricted to the children
    that did not already go to the left side. *)
Definition elif_head_triples (left_label head_pos_tag right_label : Z)
    (head : Tree) : list triple :=
  if decide (pos_tag head = head_pos_tag) then
    cross (filter (fun c => label c = left_label) (children head)) head
          (filter (fun c => label c ≠ left_label ∧ label c = right_label)
                  (children head))
  else [].

(** All visited nodes of a list of sentences: sentence order, then
    pre-order. *)
Definition visited (ss : list Sentence) : list Tree :=
  flat_map (fun s => walk (root s)) ss.

(** The pre-order walk with the depth of every node, the root at [depth]. *)
Fixpoint walk_depth (t : Tree) (depth : Z) : list (Z * Tree) :=
  match t with
  | mkTree _ _ _ _ _ cs _ _ =>
      (depth, t) :: flat_map (fun c => walk_depth c (depth + 1)) cs
  end.

(** The line prefix as the specification words it: ['|- '] plus ['   ']
    repeated [depth - 2] times above depth 2, ['|- '] alone at depth 2,
    nothing at depth 1. *)
Definition worded_prefix (depth : Z) : string :=
  if decide (2 < depth) then "|- " +:+ str_mul "   " (depth - 2)
  else if decide (depth = 2) then "|- "
  else "".

(** The same with the indentation first and the marker last. *)
Definition indented_prefix (depth : Z) : string :=
  if decide (2 < depth) then str_mul "   " (depth - 2) +:+ "|- "
  else if decide (depth = 2) then "|- "
  else "".

(** One line of the printable tree: a prefix chosen by the depth, then the
    node's string representation. *)
Definition tree_line (prefix : Z → string) (verbose : bool) (dn : Z * Tree)
  : result string :=
  repr ← get_string_repr dn.2 verbose; Ok (prefix dn.1 +:+ repr).

(** The printable tree made of one line per node, in pre-order, joined by
    single newlines. *)
Definition printable_lines (prefix : Z → string) (t : Tree) (verbose : bool)
  : result string :=
  lines ← mapR (tree_line prefix verbose) (walk_depth t 1);
  Ok (join newline lines).

(** *** The token array as a graph *)

Section token_graph.
Context {E : enums}.
Variable all_tokens : list Token.

Definition label_at (i : nat) : option Z :=
  dependency_label <$> all_tokens !! i.

Definition head_at (i : nat) : option Z :=
  head_token_index <$> all_tokens !! i.

(** The positions, in input order, of the tokens that [_create_tree] makes
    children of [p]: not labelled [ROOT], and with head index [p]. *)
Definition child_indices (p : Z) : list nat :=
  filter (fun c => label_at c ≠ Some ROOT ∧ head_at c = Some p)
         (seq 0 (length all_tokens)).

(** The positions of the tokens labelled [ROOT], in input order. *)
Definition root_indices : list nat :=
  filter (fun c => label_at c = Some ROOT) (seq 0 (length all_tokens)).

(** [edge p c]: token [c] is selected as a child of token [p]. *)
Definition edge (p c : nat) : Prop :=
  label_at c ≠ Some ROOT ∧ head_at c = Some (Z.of_nat p).

(** [rooted k i]: token [i] lies [k] edges below a token labelled [ROOT]. *)
Inductive rooted : nat → nat → Prop :=
  | rooted_root i : label_at i = Some ROOT → rooted 0 i
  | rooted_step k p c : rooted k p → edge p c → rooted (S k) c.

(** [below i m j]: token [j] lies [m] edges below token [i]. *)
Inductive below : nat → nat → nat → Prop :=
  | below_refl i : below i 0 i
  | below_step i c m j : edge i c → below c m j → below i (S m) j.

(** Following head indices from [i] reaches [r] within [fuel] steps. *)
Fixpoint climbs (fuel : nat) (r i : nat) : bool :=
  bool_decide (i = r)
  || match fuel with
     | O => false
     | S fuel' =>
         match head_at i with
         | Some h => bool_decide (0 ≤ h) && climbs fuel' r (Z.to_nat h)
         | None => false
         end
     end.

(** The head references form a tree rooted at [r]: every token reaches [r]
    by following head indices. *)
Definition tree_rooted_at (r : nat) : bool :=
  forallb (climbs (length all_tokens) r) (seq 0 (length all_tokens)).

(** The indices of the nodes of the tree built at [i], in pre-order, with
    the recursion depth bounded as in [_create_tree]. *)
Fixpoint subtree_indices (limit : nat) (i : nat) : list nat :=
  match limit with
  | O => []
  | S limit' =>
      i :: (child_indices (Z.of_nat i) ≫= subtree_indices limit')
  end.

End token_graph.

(** *** Token arrays of several sentences *)

Section token_forest.
Context {E : enums}.
Variable all_tokens : list Token.

(** Following head indices from [i] reaches a token labelled [ROOT] within
    [fuel] steps. *)
Fixpoint reaches_root (fuel : nat) (i : nat) : bool :=
  bool_decide (label_at all_tokens i = Some ROOT)
  || match fuel with
     | O => false
     | S fuel' =>
         match head_at all_tokens i with
         | Some h => bool_decide (0 ≤ h) && reaches_root fuel' (Z.to_nat h)
         | None => false
         end
     end.

(** The head references form a forest: every token reaches a token
    labelled [ROOT]. *)
Definition forest : bool :=
  forallb (reaches_root (length all_tokens)) (seq 0 (length all_tokens)).

End token_forest.

(** ** Sample data *)

Definition leaf (i lbl : Z) (word : string) (tag : Z) : Tree :=
  mkTree (Some i) lbl word word tag [] None None.

(** "cat chased mouse": a verb with a subject and a direct object. *)
Definition chased : Tree :=
  mkTree (Some 1) 54 "chased" "chase" 11
    [leaf 0 28 "cat" 6; leaf 2 18 "mouse" 6] None None.

Definition chased_sentence : Sentence := mkSentence "cat chased mouse" chased.

(** A chain of three nodes: depths 1, 2 and 3. *)
Definition chain3 : Tree :=
  mkTree (Some 0) 54 "a" "a" 11
    [mkTree (Some 1) 18 "b" "b" 6 [leaf 2 16 "c" 5] None None] None None.

(** "The cat chased the mouse", as the analysis service returns it. *)
Definition cat_tokens : list Token :=
  [mkToken "The" "the" 5 1 16;
   mkToken "cat" "cat" 6 2 28;
   mkToken "chased" "chase" 11 2 54;
   mkToken "the" "the" 5 4 16;
   mkToken "mouse" "mouse" 6 2 18].

Definition cat_response : Response :=
  mkResponse "en" ["The cat chased the mouse"; "A sentence without tokens"]
             cat_tokens.

(** A single token that is not labelled ROOT and names itself as head. *)
Definition self_loop : list Token := [mkToken "it" "it" 8 0 28].

(** Two sentences of one verb each, with a subject and two objects. *)
Definition gave : Tree :=
  mkTree (Some 1) 54 "gave" "give" 11
    [leaf 0 28 "she" 8; leaf 2 18 "books" 6; leaf 3 43 "to" 2] None None.

Definition two_sentences : Document :=
  mkDocument "en" [chased_sentence; mkSentence "she gave books to" gave].

(** * Properties *)

(** ** The generic matcher *)

Lemma flat_map_nil_f {A B} (l : list A) : flat_map (fun _ => @nil B) l = [].
Proof. induction l; simpl; auto. Qed.

Lemma flat_map_singleton_map {A B} (f : A → B) (l : list A) :
  flat_map (fun a => [f a]) l = map f l.
Proof. induction l; simpl; congruence. Qed.

Lemma collect_deps_acc left_label right_label cs ls rs :
  fold_left
    (fun deps child =>
       if decide (label child = left_label) then (deps.1 ++ [child], deps.2)
       else if decide (label child = right_label) then (deps.1, deps.2 ++ [child])
       else deps)
    cs (ls, rs)
  = (ls ++ filter (fun c => label c = left_label) cs,
     rs ++ filter (fun c => label c ≠ left_label ∧ label c = right_label) cs).
Proof.
  revert ls rs. induction cs as [|c cs IH]; intros ls rs; simpl.
  - by rewrite !app_nil_r.
  - rewrite !filter_cons.
    destruct (decide (label c = left_label)) as [Hl|Hl]; simpl.
    + rewrite IH. rewrite decide_False by tauto. by rewrite <- app_assoc.
    + destruct (decide (label c = right_label)) as [Hr|Hr]; simpl.
      * rewrite IH. rewrite decide_True by tauto. by rewrite <- app_assoc.
      * rewrite IH. rewrite decide_False by tauto. done.
Qed.

Lemma collect_deps_filter left_label right_label cs :
  collect_deps left_label right_label cs
  = (filter (fun c => label c = left_label) cs,
     filter (fun c => label c ≠ left_label ∧ label c = right_label) cs).
Proof. unfold collect_deps. by rewrite collect_deps_acc. Qed.

Lemma node_triples_elif left_label head_pos_tag right_label node :
  node_triples left_label head_pos_tag right_label node
  = elif_head_triples left_label head_pos_tag right_label node.
Proof.
  unfold node_triples, elif_head_triples, cross.
  rewrite collect_deps_filter. simpl.
  destruct (decide (pos_tag node ≠ head_pos_tag)) as [Hne|Heq].
  - by rewrite decide_False.
  - rewrite decide_True by (by destruct (decide (pos_tag node = head_pos_tag))).
    apply flat_map_ext. intros l. apply flat_map_singleton_map.
Qed.

Lemma filter_right_distinct (left_label right_label : Z) (cs : list Tree) :
  left_label ≠ right_label →
  filter (fun c => label c ≠ left_label ∧ label c = right_label) cs
  = filter (fun c => label c = right_label) cs.
Proof.
  intros Hne. induction cs as [|c cs IH]; [done|].
  rewrite !filter_cons, IH.
  destruct (decide (label c = right_label)) as [Hr|Hr].
  - rewrite decide_True; [done|]. split; congruence.
  - rewrite decide_False; [done|]. tauto.
Qed.

Lemma filter_right_same (left_label : Z) (cs : list Tree) :
  filter (fun c => label c ≠ left_label ∧ label c = left_label) cs = [].
Proof.
  induction cs as [|c cs IH]; [done|].
  rewrite filter_cons, IH. rewrite decide_False; [done|]. tauto.
Qed.

Lemma cross_nil_r ls head : cross ls head [] = [].
Proof. unfold cross. simpl. apply flat_map_nil_f. Qed.

Lemma find_generic_triples_sentences src ss left_label head_pos_tag right_label :
  sentences_of src = Ok ss →
  find_generic_triples src left_label head_pos_tag right_label
  = Gen (flat_map (elif_head_triples left_label head_pos_tag right_label)
                  (visited ss)) None.
Proof.
  intros Hs. unfold find_generic_triples, visited. rewrite Hs. f_equal.
  clear Hs. induction ss as [|s ss IH]; simpl; [done|].
  rewrite flat_map_app. f_equal.
  - apply flat_map_ext. intros n. apply node_triples_elif.
  - apply IH.
Qed.

(** C1 (as amended). For a Sentence or Document source the matcher yields,
    for each sentence in order and each node [head] of its pre-order walk
    whose [pos_tag] is [head_pos_tag], the cross product [(l, head, r)] with
    [l] over the direct children labelled [left_label] (outer loop) and [r]
    over the direct children labelled [right_label] that are not labelled
    [left_label] (inner loop), both in child order, and then returns; with
    distinct labels this is the cross product the specification words; and
    when no visited node has [pos_tag = head_pos_tag] nothing is yielded. *)
Theorem find_generic_triples_spec src ss left_label head_pos_tag right_label :
  sentences_of src = Ok ss →
  find_generic_triples src left_label head_pos_tag right_label
  = Gen (flat_map (fun head =>
           if decide (pos_tag head = head_pos_tag) then
             cross (filter (fun c => label c = left_label) (children head))
                   head
                   (filter (fun c => label c ≠ left_label ∧ label c = right_label)
                           (children head))
           else []) (visited ss)) None
  ∧ (left_label ≠ right_label →
     find_generic_triples src left_label head_pos_tag right_label
     = Gen (flat_map (spec_head_triples left_label head_pos_tag right_label)
                     (visited ss)) None)
  ∧ ((∀ n, n ∈ visited ss → pos_tag n ≠ head_pos_tag) →
     find_generic_triples src left_label head_pos_tag right_label = Gen [] None).
Proof.
  intros Hs. rewrite (find_generic_triples_sentences _ _ _ _ _ Hs).
  split; [done|]. split.
  - intros Hne. f_equal. apply flat_map_ext. intros n.
    unfold elif_head_triples, spec_head_triples.
    by rewrite filter_right_distinct.
  - intros Hno. f_equal.
    induction (visited ss) as [|n ns IH]; simpl; [done|].
    rewrite IH by (intros m Hm; apply Hno; by right).
    unfold elif_head_triples. rewrite decide_False; [done|].
    apply Hno. by left.
Qed.

Lemma find_generic_triples_spec_witness :
  find_generic_triples (PySentence chased_sentence) 28 11 18
  = Gen [(leaf 0 28 "cat" 6, chased, leaf 2 18 "mouse" 6)] None
  ∧ find_generic_triples (PySentence chased_sentence) 28 11 18
    = Gen (flat_map (spec_head_triples 28 11 18) (visited [chased_sentence]))
          None
  ∧ find_generic_triples (PySentence chased_sentence) 28 99 18 = Gen [] None.
Proof.
  destruct (find_generic_triples_spec (PySentence chased_sentence)
              [chased_sentence] 28 11 18 eq_refl) as (H1 & H2 & _).
  destruct (find_generic_triples_spec (PySentence chased_sentence)
              [chased_sentence] 28 99 18 eq_refl) as (_ & _ & H3).
  split; [by rewrite H1|]. split; [by apply H2|].
  apply H3. intros n Hn. apply list_elem_of_In in Hn. simpl in Hn.
  destruct Hn as [<-|[<-|[<-|[]]]]; done.
Defined.

(** C1 fails as worded: with [left_label = right_label] the child labelled
    28 is a left match and, by the wording, a right match as well, so the
    worded cross product has one triple; the code yields none. *)
Lemma find_generic_triples_equal_labels_counterexample :
  find_generic_triples (PySentence chased_sentence) 28 11 28
  ≠ Gen (flat_map (spec_head_triples 28 11 28) (visited [chased_sentence])) None.
Proof.
  intros H. apply (f_equal (fun g => length (yielded g))) in H.
  vm_compute in H. discriminate H.
Qed.

(** C9. With identical left and right labels the matcher yields nothing on
    any Sentence or Document: every matching child goes to the left side
    and the right side stays empty. *)
Theorem find_generic_triples_same_label src ss head_pos_tag lbl :
  sentences_of src = Ok ss →
  find_generic_triples src lbl head_pos_tag lbl = Gen [] None
  ∧ ∀ n, (collect_deps lbl lbl (children n)).2 = [].
Proof.
  intros Hs. split.
  - rewrite (find_generic_triples_sentences _ _ _ _ _ Hs). f_equal.
    induction (visited ss) as [|n ns IH]; simpl; [done|].
    rewrite IH. unfold elif_head_triples.
    rewrite filter_right_same, cross_nil_r. by destruct (decide _).
  - intros n. rewrite collect_deps_filter. simpl. apply filter_right_same.
Qed.

Lemma find_generic_triples_same_label_witness :
  find_generic_triples (PySentence chased_sentence) 28 11 28 = Gen [] None.
Proof.
  apply (find_generic_triples_same_label (PySentence chased_sentence)
           [chased_sentence] 11 28 eq_refl).
Defined.

(** ** The multi-criteria matcher *)

Lemma product_three {A} (xs ys zs : list A) :
  product [xs; ys; zs]
  = flat_map (fun x => flat_map (fun y => map (fun z => [x; y; z]) zs) ys) xs.
Proof.
  unfold product. simpl. rewrite app_nil_r.
  induction xs as [|x xs IH]; simpl; [done|].
  rewrite flat_map_app, IH. f_equal.
  clear IH. induction ys as [|y ys IH]; simpl; [done|].
  by rewrite IH.
Qed.

Lemma gen_seq_empty_r {A} (g : gen A) : gen_seq g gen_empty = g.
Proof.
  destruct g as [ys [e|]]; unfold gen_seq; simpl; [done|].
  by rewrite app_nil_r.
Qed.

Lemma gen_seq_empty_l {A} (g : gen A) : gen_seq gen_empty g = g.
Proof. by destruct g. Qed.

Lemma gen_chain_app {A} (gs1 gs2 : list (gen A)) :
  gen_chain (gs1 ++ gs2) = gen_seq (gen_chain gs1) (gen_chain gs2).
Proof.
  induction gs1 as [|g gs1 IH]; simpl.
  - by rewrite gen_seq_empty_l.
  - rewrite IH. destruct g as [ys [e|]]; unfold gen_seq; simpl; [done|].
    destruct (raised (gen_chain gs1)); simpl; by rewrite ?app_assoc.
Qed.

Lemma gen_chain_returned {A} (gs : list (gen A)) :
  Forall (fun g => raised g = None) gs →
  gen_chain gs = Gen (flat_map yielded gs) None.
Proof.
  induction 1 as [|g gs Hg _ IH]; simpl; [done|].
  rewrite IH. unfold gen_seq. by rewrite Hg.
Qed.

Lemma gen_chain_silent {A} (gs : list (gen A)) :
  Forall (fun g => yielded g = []) gs →
  yielded (gen_chain gs) = [] ∧ flat_map yielded gs = [].
Proof.
  induction 1 as [|g gs Hg _ [IH1 IH2]]; simpl; [done|].
  rewrite IH2, Hg. split; [|done].
  unfold gen_seq. destruct (raised g); simpl; [done|]. by rewrite Hg, IH1.
Qed.

(** The multi-criteria matcher as a chain of generic matchers, one per
    combination, the left label outermost and the right label innermost. *)
Lemma multi_criteria_chain src left_labels head_pos_tags right_labels :
  find_generic_triples_multi_criteria src left_labels head_pos_tags right_labels
  = gen_chain
      (flat_map (fun l =>
         flat_map (fun p =>
           map (fun r => find_generic_triples src l p r) right_labels)
           head_pos_tags)
         left_labels).
Proof.
  unfold find_generic_triples_multi_criteria. rewrite product_three. f_equal.
  induction left_labels as [|l ls IHl]; simpl; [done|].
  rewrite map_app, IHl. f_equal.
  clear IHl. induction head_pos_tags as [|p ps IHp]; simpl; [done|].
  rewrite map_app, IHp. f_equal.
  by rewrite map_map.
Qed.

Lemma find_generic_triples_outcome src l p r :
  (raised (find_generic_triples src l p r) = None
   ∧ is_document_or_sentence src = true)
  ∨ (find_generic_triples src l p r = Gen [] (Some (TypeError "doc_or_sentence"))
     ∧ is_document_or_sentence src = false).
Proof. destruct src; simpl; auto. Qed.

Lemma Forall_combinations {A B} (P : B → Prop) (f : A → A → A → B)
    (xs ys zs : list A) :
  (∀ x y z, P (f x y z)) →
  Forall P (flat_map (fun x => flat_map (fun y => map (fun z => f x y z) zs) ys) xs).
Proof.
  intros H. apply Forall_forall. intros b Hb.
  apply list_elem_of_In, in_flat_map in Hb as (x & _ & Hb).
  apply in_flat_map in Hb as (y & _ & Hb).
  apply in_map_iff in Hb as (z & <- & _). apply H.
Qed.

(** C2. On single labels the multi-criteria matcher is the generic matcher;
    in general it runs the generic matcher once per combination, the left
    labels in the outer loop, the head tags in the middle and the right
    labels in the inner loop, and yields each run's output in full before
    the next run. *)
Theorem find_generic_triples_multi_criteria_spec src :
  (∀ L P R,
     find_generic_triples_multi_criteria src [L] [P] [R]
     = find_generic_triples src L P R)
  ∧ (∀ left_labels head_pos_tags right_labels,
       find_generic_triples_multi_criteria src
         left_labels head_pos_tags right_labels
       = gen_chain
           (flat_map (fun l =>
              flat_map (fun p =>
                map (fun r => find_generic_triples src l p r) right_labels)
                head_pos_tags)
              left_labels)
       ∧ yielded (find_generic_triples_multi_criteria src
                    left_labels head_pos_tags right_labels)
         = flat_map (fun l =>
             flat_map (fun p =>
               flat_map (fun r => yielded (find_generic_triples src l p r))
                 right_labels)
               head_pos_tags)
             left_labels).
Proof.
  split.
  - intros L P R. rewrite multi_criteria_chain. simpl. apply gen_seq_empty_r.
  - intros ls ps rs. split; [apply multi_criteria_chain|].
    rewrite multi_criteria_chain.
    assert (flat_map (fun l => flat_map (fun p =>
              flat_map (fun r => yielded (find_generic_triples src l p r)) rs)
              ps) ls
            = flat_map yielded (flat_map (fun l => flat_map (fun p =>
                map (fun r => find_generic_triples src l p r) rs) ps) ls))
      as ->.
    { induction ls as [|l ls IHl]; simpl; [done|].
      rewrite flat_map_app, IHl. f_equal.
      clear IHl. induction ps as [|p ps IHp]; simpl; [done|].
      rewrite flat_map_app, IHp. f_equal.
      by rewrite !flat_map_concat_map, map_map. }
    destruct (is_document_or_sentence src) eqn:Hsrc.
    + rewrite gen_chain_returned; [done|].
      apply (Forall_combinations (fun g => raised g = None)
               (find_generic_triples src)).
      intros l p r.
      destruct (find_generic_triples_outcome src l p r) as [[? _]|[_ ?]];
        congruence.
    + assert (Forall (fun g : gen triple => yielded g = [])
                (flat_map (fun l => flat_map (fun p =>
                   map (fun r => find_generic_triples src l p r) rs) ps) ls))
        as Hsilent.
      { apply (Forall_combinations (fun g => yielded g = [])
                 (find_generic_triples src)).
        intros l p r.
        destruct (find_generic_triples_outcome src l p r) as [[_ ?]|[-> _]];
          [congruence|done]. }
      apply gen_chain_silent in Hsilent as [-> ->]. done.
Qed.

Lemma multi_criteria_outcome src left_labels head_pos_tags right_labels :
  (is_document_or_sentence src = true →
   raised (find_generic_triples_multi_criteria src
             left_labels head_pos_tags right_labels) = None)
  ∧ (is_document_or_sentence src = false →
     yielded (find_generic_triples_multi_criteria src
                left_labels head_pos_tags right_labels) = []).
Proof.
  rewrite multi_criteria_chain. split; intros Hsrc.
  - rewrite gen_chain_returned; [done|].
    apply (Forall_combinations (fun g => raised g = None)
             (find_generic_triples src)).
    intros l p r.
    destruct (find_generic_triples_outcome src l p r) as [[? _]|[_ ?]];
      congruence.
  - apply gen_chain_silent.
    apply (Forall_combinations (fun g => yielded g = [])
             (find_generic_triples src)).
    intros l p r.
    destruct (find_generic_triples_outcome src l p r) as [[_ ?]|[-> _]];
      [congruence|done].
Qed.

Lemma multi_criteria_no_combination src left_labels head_pos_tags right_labels :
  left_labels = [] ∨ head_pos_tags = [] ∨ right_labels = [] →
  find_generic_triples_multi_criteria src left_labels head_pos_tags right_labels
  = Gen [] None.
Proof.
  intros H. rewrite multi_criteria_chain.
  assert (flat_map (fun l => flat_map (fun p =>
            map (fun r => find_generic_triples src l p r) right_labels)
            head_pos_tags) left_labels = []) as ->; [|done].
  destruct H as [->|[->| ->]]; simpl.
  - done.
  - apply flat_map_nil_f.
  - induction left_labels as [|l ls IH]; simpl; [done|].
    rewrite IH, app_nil_r. apply flat_map_nil_f.
Qed.

Section verb_triples.
Context {E : enums}.

(** ** The verb-triple policy *)

(** C3. With both voices enabled the verb-triple generator is the active
    run followed by the passive run: as generators, and as yielded
    sequences; the active run is the multi-criteria matcher on
    [NSUBJ] / [VERB] / [DOBJ; PREP], the passive run the one on
    [NSUBJPASS] / [VERB] / [POBJ; PREP]; with both voices disabled nothing
    is yielded; and on a Document or a Sentence no run raises. *)
Theorem find_verb_triples_voices src :
  find_verb_triples src true true
  = gen_seq (find_verb_triples src true false) (find_verb_triples src false true)
  ∧ yielded (find_verb_triples src true true)
    = yielded (find_verb_triples src true false)
      ++ yielded (find_verb_triples src false true)
  ∧ find_verb_triples src true false
    = find_generic_triples_multi_criteria src [NSUBJ] [VERB] [DOBJ; PREP]
  ∧ find_verb_triples src false true
    = find_generic_triples_multi_criteria src [NSUBJPASS] [VERB] [POBJ; PREP]
  ∧ find_verb_triples src false false = Gen [] None
  ∧ (∀ d active passive,
       raised (find_verb_triples (PyDocument d) active passive) = None)
  ∧ (∀ s active passive,
       raised (find_verb_triples (PySentence s) active passive) = None).
Proof.
  assert (∀ o, find_verb_triples o true false
             = find_generic_triples_multi_criteria o [NSUBJ] [VERB] [DOBJ; PREP])
    as Hactive by (intros o; apply gen_seq_empty_r).
  assert (∀ o, find_verb_triples o false true
             = find_generic_triples_multi_criteria o
                 [NSUBJPASS] [VERB] [POBJ; PREP])
    as Hpassive by (intros o; apply gen_seq_empty_l).
  assert (∀ o active passive, is_document_or_sentence o = true →
            raised (find_verb_triples o active passive) = None) as Hvalid.
  { intros o a p Ho. unfold find_verb_triples, gen_seq.
    destruct a, p; simpl;
      rewrite ?(proj1 (multi_criteria_outcome o _ _ _) Ho); simpl;
      rewrite ?(proj1 (multi_criteria_outcome o _ _ _) Ho); done. }
  split; [|split; [|split; [|split; [|split; [|split]]]]].
  - rewrite Hactive, Hpassive. done.
  - rewrite Hactive, Hpassive. unfold find_verb_triples, gen_seq.
    destruct (is_document_or_sentence src) eqn:Hsrc.
    + by rewrite (proj1 (multi_criteria_outcome src _ _ _) Hsrc).
    + rewrite (proj2 (multi_criteria_outcome src [NSUBJPASS] _ _) Hsrc).
      destruct (raised _); simpl; by rewrite ?app_nil_r.
  - apply Hactive.
  - apply Hpassive.
  - done.
  - intros d a p. by apply Hvalid.
  - intros s a p. by apply Hvalid.
Qed.

(** ** Sources that are neither a Sentence nor a Document *)

(** C6 (as amended). On a source that is neither a Sentence nor a Document
    the generic matcher raises when it is first advanced, having yielded
    nothing; the multi-criteria matcher does so when its three criteria
    lists are all non-empty, and [find_verb_triples] when at least one voice
    is enabled; with an empty criteria list, or with both voices disabled,
    they end without an error and without a triple. *)
Theorem invalid_source_raises src :
  is_document_or_sentence src = false →
  (∀ L P R,
     find_generic_triples src L P R
     = Gen [] (Some (TypeError "doc_or_sentence")))
  ∧ (∀ l ls p ps r rs,
       find_generic_triples_multi_criteria src (l :: ls) (p :: ps) (r :: rs)
       = Gen [] (Some (TypeError "doc_or_sentence")))
  ∧ (∀ ls ps rs,
       ls = [] ∨ ps = [] ∨ rs = [] →
       find_generic_triples_multi_criteria src ls ps rs = Gen [] None)
  ∧ (∀ active passive,
       find_verb_triples src active passive
       = if active || passive
         then Gen [] (Some (TypeError "doc_or_sentence"))
         else Gen [] None).
Proof.
  intros Hsrc.
  assert (∀ L P R, find_generic_triples src L P R
                   = Gen [] (Some (TypeError "doc_or_sentence"))) as Hgen.
  { intros L P R.
    destruct (find_generic_triples_outcome src L P R) as [[_ ?]|[? _]];
      [congruence|done]. }
  assert (∀ l ls p ps r rs,
            find_generic_triples_multi_criteria src (l :: ls) (p :: ps) (r :: rs)
            = Gen [] (Some (TypeError "doc_or_sentence"))) as Hmulti.
  { intros l ls p ps r rs. rewrite multi_criteria_chain. simpl.
    by rewrite Hgen. }
  split; [done|]. split; [done|]. split.
  - intros ls ps rs. apply multi_criteria_no_combination.
  - intros a p. unfold find_verb_triples.
    destruct a, p; simpl; rewrite ?Hmulti; done.
Qed.

End verb_triples.

Lemma invalid_source_raises_witness :
  find_verb_triples (E:=language_v1) PyNone true true
  = Gen [] (Some (TypeError "doc_or_sentence")).
Proof.
  apply (invalid_source_raises (E:=language_v1) PyNone eq_refl).
Defined.

(** C6 fails as worded: on a source that is neither a Sentence nor a
    Document, [find_verb_triples] with both voices disabled and the
    multi-criteria matcher with an empty list of labels end normally. *)
Lemma invalid_source_counterexample :
  is_document_or_sentence PyNone = false
  ∧ ¬ (∃ e, raised (find_verb_triples (E:=language_v1) PyNone false false)
            = Some e)
  ∧ ¬ (∃ e, raised (find_generic_triples_multi_criteria
                      PyNone [] [11] [18]) = Some e).
Proof. split; [done|]. split; intros [e He]; discriminate He. Qed.

(** ** The printable tree *)

Lemma Tree_ind_nested (P : Tree → Prop) :
  (∀ i l c le p cs pm lm, Forall P cs → P (mkTree i l c le p cs pm lm)) →
  ∀ t, P t.
Proof.
  intros H. fix IH 1. intros [i l c le p cs pm lm]. apply H.
  induction cs as [|c' cs IHcs]; constructor; [apply IH | apply IHcs].
Qed.

Lemma mapR_app {A B} (f : A → result B) (l1 l2 : list A) :
  mapR f (l1 ++ l2) = (a ← mapR f l1; b ← mapR f l2; Ok (a ++ b)).
Proof.
  induction l1 as [|x l1 IH]; simpl.
  - by destruct (mapR f l2).
  - destruct (f x); simpl; [|done]. rewrite IH.
    destruct (mapR f l1); simpl; [|done]. by destruct (mapR f l2).
Qed.

Lemma line_prefix_indented depth :
  1 ≤ depth → line_prefix depth = indented_prefix depth.
Proof.
  intros Hd. unfold line_prefix, indented_prefix.
  repeat case_decide; try lia; done.
Qed.

Lemma extend_statements_lines visit (w : Tree → list (Z * Tree)) line ns :
  Forall (fun n => visit n = mapR line (w n)) ns →
  ∀ statements,
    extend_statements visit ns statements
    = (rest ← mapR line (flat_map w ns); Ok (statements ++ rest)).
Proof.
  induction 1 as [|n ns Hn _ IH]; intros statements; simpl.
  - by rewrite app_nil_r.
  - rewrite Hn, mapR_app. destruct (mapR line (w n)); simpl; [|done].
    rewrite IH. destruct (mapR line (flat_map w ns)); simpl; [|done].
    by rewrite app_assoc.
Qed.

Lemma bind_Ok {A B} (a : A) (k : A → result B) : (Ok a ≫= k) = k a.
Proof. done. Qed.

Lemma bind_Raise {A B} (e : exn) (k : A → result B) : (Raise e ≫= k) = Raise e.
Proof. done. Qed.

Lemma _get_tree_statements_eq t max_depth depth verbose :
  _get_tree_statements t max_depth depth verbose
  = if decide (max_depth = Some 0) then Ok []
    else
      repr ← get_string_repr t verbose;
      extend_statements
        (fun n => _get_tree_statements n ((fun m => m - 1) <$> max_depth)
                    (depth + 1) verbose)
        (children t) [line_prefix depth +:+ repr].
Proof. by destruct t. Qed.

Lemma walk_depth_eq t depth :
  walk_depth t depth
  = (depth, t) :: flat_map (fun c => walk_depth c (depth + 1)) (children t).
Proof. by destruct t. Qed.

Lemma mapR_cons {A B} (f : A → result B) (a : A) (l : list A) :
  mapR f (a :: l) = (b ← f a; bs ← mapR f l; Ok (b :: bs)).
Proof. done. Qed.

Lemma tree_line_eq prefix verbose depth n :
  tree_line prefix verbose (depth, n)
  = (repr ← get_string_repr n verbose; Ok (prefix depth +:+ repr)).
Proof. done. Qed.

Lemma _get_tree_statements_lines verbose t :
  ∀ depth, 1 ≤ depth →
    _get_tree_statements t None depth verbose
    = mapR (tree_line indented_prefix verbose) (walk_depth t depth).
Proof.
  induction t as [i l c le p cs pm lm IH] using Tree_ind_nested.
  intros depth Hd.
  rewrite _get_tree_statements_eq, walk_depth_eq, mapR_cons.
  rewrite decide_False by done. rewrite tree_line_eq.
  cbn [children fmap option_fmap option_map].
  destruct (get_string_repr _ verbose) as [repr|e];
    rewrite ?bind_Ok, ?bind_Raise; [|done].
  rewrite (extend_statements_lines _ (fun n => walk_depth n (depth + 1))
             (tree_line indented_prefix verbose)).
  - rewrite line_prefix_indented by done.
    by destruct (mapR _ (flat_map _ cs)).
  - eapply Forall_impl; [exact IH|]. intros n Hn. apply Hn. lia.
Qed.

Lemma walk_depth_walk t : ∀ depth, map snd (walk_depth t depth) = walk t.
Proof.
  induction t as [i l c le p cs pm lm IH] using Tree_ind_nested.
  intros depth. simpl. f_equal.
  induction IH as [|n ns Hn _ IHns]; simpl; [done|].
  by rewrite map_app, Hn, IHns.
Qed.

(** C8 (as amended). The printable tree without a maximum depth has one
    line per node, in pre-order, joined by single newlines; the line of a
    node is its string representation preceded, above depth 2, by ['   ']
    repeated [depth - 2] times followed by ['|- '], at depth 2 by ['|- ']
    alone, and at depth 1 (the root) by nothing. *)
Theorem get_printable_tree_lines t verbose :
  get_printable_tree t None verbose
  = (lines ←
       mapR (fun dn =>
               repr ← get_string_repr dn.2 verbose;
               Ok ((if decide (2 < dn.1)
                    then str_mul "   " (dn.1 - 2) +:+ "|- "
                    else if decide (dn.1 = 2) then "|- " else "") +:+ repr))
            (walk_depth t 1);
     Ok (join newline lines))
  ∧ map snd (walk_depth t 1) = walk t
  ∧ (∀ n depth,
       walk_depth n depth
       = (depth, n) :: flat_map (fun c => walk_depth c (depth + 1)) (children n)).
Proof.
  split; [|split].
  - unfold get_printable_tree.
    by rewrite _get_tree_statements_lines.
  - apply walk_depth_walk.
  - apply walk_depth_eq.
Qed.

(** C8 fails as worded: at depth 3 the code writes the indentation before
    the marker (["   |- c ..."]), the wording has the marker first. *)
Lemma get_printable_tree_prefix_counterexample :
  get_printable_tree chain3 None false
  ≠ printable_lines worded_prefix chain3 false.
Proof. vm_compute. intros H. discriminate H. Qed.

Lemma extend_statements_ext visit1 visit2 ns :
  Forall (fun n => visit1 n = visit2 n) ns →
  ∀ statements,
    extend_statements visit1 ns statements
    = extend_statements visit2 ns statements.
Proof.
  induction 1 as [|n ns Hn _ IH]; intros statements; simpl; [done|].
  rewrite Hn. destruct (visit2 n); rewrite ?bind_Ok, ?bind_Raise; [|done].
  apply IH.
Qed.

Lemma _get_tree_statements_negative verbose t :
  ∀ m depth, m < 0 →
    _get_tree_statements t (Some m) depth verbose
    = _get_tree_statements t None depth verbose.
Proof.
  induction t as [i l c le p cs pm lm IH] using Tree_ind_nested.
  intros m depth Hm. rewrite !_get_tree_statements_eq.
  rewrite !decide_False by (try done; intros [= ->]; lia).
  cbn [children fmap option_fmap option_map].
  destruct (get_string_repr _ verbose) as [repr|e];
    rewrite ?bind_Ok, ?bind_Raise; [|done].
  apply extend_statements_ext.
  eapply Forall_impl; [exact IH|]. intros n Hn. apply Hn. lia.
Qed.

(** C10. With [max_depth = 0] the printable tree is the empty string, and
    with a negative [max_depth] the full tree is produced, exactly as
    without a limit: one line per node of the walk, in pre-order, each made
    of the depth prefix and the node's string representation, joined by
    newlines. *)
Theorem get_printable_tree_max_depth t verbose :
  get_printable_tree t (Some 0) verbose = Ok ""
  ∧ ∀ m, m < 0 →
      get_printable_tree t (Some m) verbose = get_printable_tree t None verbose
      ∧ get_printable_tree t (Some m) verbose
        = (lines ←
             mapR (fun dn =>
                     repr ← get_string_repr dn.2 verbose;
                     Ok ((if decide (2 < dn.1)
                          then str_mul "   " (dn.1 - 2) +:+ "|- "
                          else if decide (dn.1 = 2) then "|- " else "")
                         +:+ repr))
                  (walk_depth t 1);
           Ok (join newline lines))
      ∧ map snd (walk_depth t 1) = walk t.
Proof.
  split.
  - unfold get_printable_tree. rewrite _get_tree_statements_eq.
    by rewrite decide_True.
  - intros m Hm. unfold get_printable_tree.
    rewrite _get_tree_statements_negative by done.
    split; [done|]. split; [|apply walk_depth_walk].
    by rewrite _get_tree_statements_lines.
Qed.

Lemma get_printable_tree_max_depth_witness :
  -2 < 0
  ∧ get_printable_tree chain3 (Some (-2)) false
    = Ok ("a (pos_tag=11, label=54)" +:+ newline
          +:+ "|- b (pos_tag=6, label=18)" +:+ newline
          +:+ "   |- c (pos_tag=5, label=16)")
  ∧ get_printable_tree chain3 (Some (-2)) false
    = get_printable_tree chain3 None false.
Proof.
  split; [lia|].
  destruct (proj2 (get_printable_tree_max_depth chain3 false) (-2))
    as (H1 & H2 & _); [lia|].
  split; [|exact H1].
  rewrite H2. vm_compute. reflexivity.
Defined.

(** ** Building the tree *)

Lemma filter_imap_offset {A} (P : nat * A → Prop) `{∀ x, Decision (P x)}
    (Q : nat → Prop) `{∀ x, Decision (Q x)} (l : list A) :
  ∀ k,
    (∀ j a, l !! j = Some a → (P ((k + j)%nat, a) ↔ Q (k + j)%nat)) →
    (filter P (imap (fun i a => ((k + i)%nat, a)) l)).*1
    = filter Q (seq k (length l)).
Proof.
  induction l as [|x l IH]; intros k HPQ; [done|].
  rewrite imap_cons. simpl length. simpl seq. rewrite !filter_cons.
  assert (imap ((fun i a => ((k + i)%nat, a)) ∘ S) l
          = imap (fun i a => ((S k + i)%nat, a)) l) as ->.
  { apply imap_ext. intros i a _. simpl. f_equal. lia. }
  assert ((filter P (imap (fun i a => ((S k + i)%nat, a)) l)).*1
          = filter Q (seq (S k) (length l))) as Htail.
  { apply IH. intros j a Hj. specialize (HPQ (S j) a Hj).
    by replace (k + S j)%nat with (S k + j)%nat in HPQ by lia. }
  specialize (HPQ 0%nat x eq_refl).
  replace (k + 0)%nat with k in * by lia.
  destruct (decide (P (k, x))) as [HP|HP].
  - rewrite decide_True by tauto. by rewrite fmap_cons, Htail.
  - rewrite decide_False by tauto. done.
Qed.

Lemma filter_enumerate {A} (P : nat * A → Prop) `{∀ x, Decision (P x)}
    (Q : nat → Prop) `{∀ x, Decision (Q x)} (l : list A) :
  (∀ j a, l !! j = Some a → (P (j, a) ↔ Q j)) →
  (filter P (enumerate l)).*1 = filter Q (seq 0 (length l)).
Proof. intros HPQ. by apply (filter_imap_offset P Q l 0%nat). Qed.

Lemma mapR_fmap {A B C} (f : B → result C) (g : A → B) (l : list A) :
  mapR f (g <$> l) = mapR (fun a => f (g a)) l.
Proof.
  induction l as [|a l IH]; [done|].
  by rewrite fmap_cons, !mapR_cons, IH.
Qed.

Lemma mapR_Forall2 {A B} (f : A → result B) (l : list A) :
  ∀ bs, mapR f l = Ok bs → Forall2 (fun a b => f a = Ok b) l bs.
Proof.
  induction l as [|a l IH]; intros bs; simpl.
  - intros [= <-]. constructor.
  - destruct (f a) as [b|e] eqn:Ha; [|done]. rewrite bind_Ok.
    destruct (mapR f l) as [bs'|e]; [|done]. rewrite bind_Ok.
    intros [= <-]. constructor; [done|]. by apply IH.
Qed.

Lemma Forall2_mapR {A B} (f : A → result B) (l : list A) (bs : list B) :
  Forall2 (fun a b => f a = Ok b) l bs → mapR f l = Ok bs.
Proof.
  induction 1 as [|a b l bs Ha _ IH]; simpl; [done|].
  by rewrite Ha, bind_Ok, IH.
Qed.

Lemma mapR_exists {A B} (f : A → result B) (l : list A) :
  (∀ a, a ∈ l → ∃ b, f a = Ok b) → ∃ bs, mapR f l = Ok bs.
Proof.
  induction l as [|a l IH]; intros Hf; simpl; [by eexists|].
  destruct (Hf a) as [b ->]; [by left|].
  destruct IH as [bs ->]; [intros x Hx; apply Hf; by right|].
  by eexists.
Qed.

Lemma flat_map_bind {A B} (f : A → list B) (l : list A) :
  flat_map f l = l ≫= f.
Proof. induction l as [|a l IH]; simpl; [done|]. by rewrite IH. Qed.

Section tree_builder.
Context {E : enums}.
Variable all_tokens : list Token.

Local Abbreviation N := (length all_tokens).

Lemma _create_tree_eq limit p :
  _create_tree (S limit) p all_tokens
  = (token ← py_index all_tokens p;
     children ←
       mapR (fun c => _create_tree limit (Z.of_nat c) all_tokens)
            (child_indices all_tokens p);
     Ok {| index := Some p;
           label := dependency_label token;
           content := text_content token;
           lemma := t_lemma token;
           pos_tag := part_of_speech_tag token;
           children := children;
           pos_tag_mapping := None;
           label_mapping := None |}).
Proof.
  simpl. unfold child_indices.
  rewrite <- (filter_enumerate
                (fun it => dependency_label it.2 ≠ ROOT
                           ∧ head_token_index it.2 = p)).
  - by rewrite mapR_fmap.
  - intros j a Hj. unfold label_at, head_at. rewrite Hj. simpl.
    split; intros [H1 H2]; split; congruence.
Qed.

Lemma py_index_nat i t :
  all_tokens !! i = Some t → py_index all_tokens (Z.of_nat i) = Ok t.
Proof.
  intros Hi. unfold py_index. cbv zeta.
  rewrite (decide_False (P := Z.of_nat i < 0)) by lia.
  rewrite (decide_True (P := 0 ≤ Z.of_nat i)) by lia.
  by rewrite Nat2Z.id, Hi.
Qed.

Lemma py_index_nat_None i :
  all_tokens !! i = None → py_index all_tokens (Z.of_nat i) = Raise IndexError.
Proof.
  intros Hi. unfold py_index. cbv zeta.
  rewrite (decide_False (P := Z.of_nat i < 0)) by lia.
  rewrite (decide_True (P := 0 ≤ Z.of_nat i)) by lia.
  by rewrite Nat2Z.id, Hi.
Qed.

Lemma label_at_lookup i l : label_at all_tokens i = Some l → (i < N)%nat.
Proof.
  unfold label_at. intros H.
  destruct (all_tokens !! i) eqn:Hi; [|done]. by eapply lookup_lt_Some.
Qed.

Lemma head_at_lookup i h : head_at all_tokens i = Some h → (i < N)%nat.
Proof.
  unfold head_at. intros H.
  destruct (all_tokens !! i) eqn:Hi; [|done]. by eapply lookup_lt_Some.
Qed.

Lemma edge_unique_parent p p' c :
  edge all_tokens p c → edge all_tokens p' c → p = p'.
Proof. intros [_ H1] [_ H2]. rewrite H1 in H2. injection H2. lia. Qed.

Lemma rooted_lt k i : rooted all_tokens k i → (i < N)%nat.
Proof.
  destruct 1 as [i Hi|k p c _ [_ Hc]].
  - by eapply label_at_lookup.
  - by eapply head_at_lookup.
Qed.

Lemma rooted_unique_depth k i :
  rooted all_tokens k i → ∀ k', rooted all_tokens k' i → k = k'.
Proof.
  induction 1 as [i Hi|k p c _ IH Hpc]; intros k' Hk'.
  - destruct Hk' as [|k' p' c' _ [Hc' _]]; [done|]. congruence.
  - destruct Hk' as [i Hi|k' p' c' Hp' Hpc']; [by destruct Hpc|].
    rewrite (edge_unique_parent _ _ _ Hpc Hpc') in IH.
    by rewrite (IH _ Hp').
Qed.

Lemma rooted_path k i :
  rooted all_tokens k i →
  ∃ path : list nat,
    length path = S k ∧ NoDup path
    ∧ ∀ x, x ∈ path → ∃ k', (k' ≤ k)%nat ∧ rooted all_tokens k' x.
Proof.
  induction 1 as [i Hi|k p c Hp (path & Hlen & Hnd & Hpath) Hpc].
  - exists [i]. split; [done|]. split; [apply NoDup_singleton|].
    intros x ->%list_elem_of_singleton. exists 0%nat. split; [lia|].
    by constructor.
  - assert (rooted all_tokens (S k) c) as Hc by (by econstructor).
    exists (c :: path). split; [simpl; lia|]. split.
    + apply NoDup_cons. split; [|done]. intros Hin.
      destruct (Hpath c Hin) as (k' & Hk' & Hrc).
      pose proof (rooted_unique_depth _ _ Hc _ Hrc). lia.
    + intros x [->|Hx]%elem_of_cons.
      * exists (S k). split; [lia|done].
      * destruct (Hpath x Hx) as (k' & Hk' & Hrx). exists k'. split; [lia|done].
Qed.

Lemma rooted_depth_bound k i : rooted all_tokens k i → (k < N)%nat.
Proof.
  intros (path & Hlen & Hnd & Hpath)%rooted_path.
  assert (path ⊆+ seq 0 N) as Hsub.
  { apply NoDup_submseteq; [done|]. intros x Hx.
    destruct (Hpath x Hx) as (k' & _ & Hrx).
    apply elem_of_seq. pose proof (rooted_lt _ _ Hrx). lia. }
  apply submseteq_length in Hsub. rewrite length_seq in Hsub. lia.
Qed.

Lemma below_rooted i m j :
  below all_tokens i m j →
  ∀ k, rooted all_tokens k i → rooted all_tokens (k + m) j.
Proof.
  induction 1 as [i|i c m j Hic _ IH]; intros k Hk.
  - by replace (k + 0)%nat with k by lia.
  - replace (k + S m)%nat with (S k + m)%nat by lia.
    apply IH. by econstructor.
Qed.

Lemma below_unique_top c1 m j :
  below all_tokens c1 m j → ∀ c2, below all_tokens c2 m j → c1 = c2.
Proof.
  induction 1 as [i|i c m j Hic _ IH]; intros c2 H2.
  - by inversion H2.
  - inversion H2 as [|i' c' m' j' Hic' Hc']; subst.
    rewrite <- (IH _ Hc') in Hic'.
    by eapply edge_unique_parent.
Qed.

Lemma below_snoc i m p :
  below all_tokens i m p →
  ∀ c, edge all_tokens p c → below all_tokens i (S m) c.
Proof.
  induction 1 as [i|i c' m p Hic _ IH]; intros c Hpc.
  - econstructor; [done|constructor].
  - econstructor; [done|]. by apply IH.
Qed.

Lemma elem_of_child_indices p c :
  c ∈ child_indices all_tokens (Z.of_nat p) ↔ edge all_tokens p c.
Proof.
  unfold child_indices, edge. rewrite list_elem_of_filter, elem_of_seq.
  split; [tauto|]. intros Hpc. split; [done|].
  destruct Hpc as [_ Hc%head_at_lookup]. lia.
Qed.

Lemma NoDup_child_indices p : NoDup (child_indices all_tokens p).
Proof. apply NoDup_filter, NoDup_seq. Qed.

Lemma _create_tree_terminates limit :
  ∀ i k, rooted all_tokens k i → (N ≤ limit + k)%nat →
    ∃ t, _create_tree limit (Z.of_nat i) all_tokens = Ok t.
Proof.
  induction limit as [|limit IH]; intros i k Hk Hlim.
  - pose proof (rooted_depth_bound _ _ Hk). lia.
  - rewrite _create_tree_eq.
    destruct (lookup_lt_is_Some_2 all_tokens i (rooted_lt _ _ Hk)) as [t Ht].
    rewrite (py_index_nat _ _ Ht), bind_Ok.
    destruct (mapR_exists
                (fun c => _create_tree limit (Z.of_nat c) all_tokens)
                (child_indices all_tokens (Z.of_nat i))) as [ts ->].
    + intros c Hc%elem_of_child_indices.
      apply (IH c (S k)); [by econstructor|lia].
    + rewrite bind_Ok. by eexists.
Qed.

Lemma mapR_mono {A B} (f g : A → result B) (l : list A) bs :
  (∀ a b, f a = Ok b → g a = Ok b) → mapR f l = Ok bs → mapR g l = Ok bs.
Proof.
  intros Hfg Hf%mapR_Forall2. apply Forall2_mapR.
  eapply Forall2_impl; [exact Hf|]. intros a b. apply Hfg.
Qed.

Lemma _create_tree_S limit :
  ∀ p t, _create_tree limit p all_tokens = Ok t →
         _create_tree (S limit) p all_tokens = Ok t.
Proof.
  induction limit as [|limit IH]; intros p t; [done|].
  rewrite (_create_tree_eq (S limit)), (_create_tree_eq limit).
  destruct (py_index all_tokens p) as [token|e]; [|done].
  rewrite !bind_Ok.
  destruct (mapR _ (child_indices all_tokens p)) as [ts|e] eqn:Hts; [|done].
  rewrite (mapR_mono _ _ _ _ (fun c => IH (Z.of_nat c)) Hts). done.
Qed.

Lemma _create_tree_le limit limit' p t :
  (limit ≤ limit')%nat →
  _create_tree limit p all_tokens = Ok t →
  _create_tree limit' p all_tokens = Ok t.
Proof.
  induction 1 as [|limit' _ IH]; [done|].
  intros Ht. by apply _create_tree_S, IH.
Qed.

Lemma walk_eq t : walk t = t :: flat_map walk (children t).
Proof. by destruct t. Qed.

Lemma _create_tree_indices limit :
  ∀ i t, _create_tree limit (Z.of_nat i) all_tokens = Ok t →
    index <$> walk t
    = (fun j => Some (Z.of_nat j)) <$> subtree_indices all_tokens limit i.
Proof.
  induction limit as [|limit IH]; intros i t; [done|].
  rewrite _create_tree_eq.
  destruct (py_index all_tokens (Z.of_nat i)) as [token|e]; [|done].
  rewrite bind_Ok.
  destruct (mapR _ (child_indices all_tokens (Z.of_nat i)))
    as [ts|e] eqn:Hts; [|done].
  rewrite bind_Ok. intros [= <-]. rewrite walk_eq.
  cbn [children subtree_indices]. rewrite !fmap_cons. f_equal.
  apply mapR_Forall2 in Hts.
  induction Hts as [|c tc cs ts Hc _ IHcs]; [done|].
  cbn [flat_map]. rewrite bind_cons, !fmap_app, IHcs.
  by rewrite (IH _ _ Hc).
Qed.

Lemma elem_of_subtree_indices limit :
  ∀ i j, j ∈ subtree_indices all_tokens limit i
         ↔ ∃ m, (m < limit)%nat ∧ below all_tokens i m j.
Proof.
  induction limit as [|limit IH]; intros i j.
  - split; [by intros ?%elem_of_nil|]. intros (m & Hm & _). lia.
  - cbn [subtree_indices]. rewrite elem_of_cons, list_elem_of_bind. split.
    + intros [->|(c & Hj & Hc)].
      * exists 0%nat. split; [lia|constructor].
      * apply IH in Hj as (m & Hm & Hcj).
        apply elem_of_child_indices in Hc.
        exists (S m). split; [lia|]. by econstructor.
    + intros (m & Hm & Hij).
      inversion Hij as [|i' c m' j' Hic Hcj]; subst; [by left|].
      right. exists c. split.
      * apply IH. exists m'. split; [lia|done].
      * by apply elem_of_child_indices.
Qed.

Lemma NoDup_subtree_indices limit :
  ∀ i k, rooted all_tokens k i → NoDup (subtree_indices all_tokens limit i).
Proof.
  induction limit as [|limit IH]; intros i k Hk; [constructor|].
  cbn [subtree_indices]. apply NoDup_cons. split.
  - intros (c & (m & _ & Hci)%elem_of_subtree_indices
              & Hc%elem_of_child_indices)%list_elem_of_bind.
    assert (rooted all_tokens (S k) c) as Hrc by (by econstructor).
    pose proof (rooted_unique_depth _ _ Hk _ (below_rooted _ _ _ Hci _ Hrc)).
    lia.
  - apply NoDup_bind; [| |apply NoDup_child_indices].
    + intros c1 c2 y Hc1%elem_of_child_indices Hc2%elem_of_child_indices
        (m1 & _ & H1)%elem_of_subtree_indices
        (m2 & _ & H2)%elem_of_subtree_indices.
      assert (rooted all_tokens (S k) c1) as Hr1 by (by econstructor).
      assert (rooted all_tokens (S k) c2) as Hr2 by (by econstructor).
      pose proof (rooted_unique_depth _ _ (below_rooted _ _ _ H1 _ Hr1)
                    _ (below_rooted _ _ _ H2 _ Hr2)) as Hm.
      assert (m1 = m2) as -> by lia.
      by eapply below_unique_top.
    + intros c Hc%elem_of_child_indices. apply (IH c (S k)).
      by econstructor.
Qed.

Lemma elem_of_root_indices r :
  r ∈ root_indices all_tokens ↔ label_at all_tokens r = Some ROOT.
Proof.
  unfold root_indices. rewrite list_elem_of_filter, elem_of_seq.
  split; [tauto|]. intros Hr. split; [done|].
  apply label_at_lookup in Hr. lia.
Qed.

Lemma climbs_below r fuel :
  root_indices all_tokens = [r] →
  ∀ i, climbs all_tokens fuel r i = true → ∃ m, below all_tokens r m i.
Proof.
  intros Hroot.
  induction fuel as [|fuel IH]; intros i; cbn [climbs];
    intros [Hi%bool_decide_eq_true|Hclimb]%orb_true_iff.
  - subst. exists 0%nat. constructor.
  - done.
  - subst. exists 0%nat. constructor.
  - destruct (decide (i = r)) as [->|Hne]; [exists 0%nat; constructor|].
    destruct (head_at all_tokens i) as [h|] eqn:Hh; [|done].
    apply andb_true_iff in Hclimb as [Hh0%bool_decide_eq_true Hclimb].
    destruct (IH _ Hclimb) as [m Hm].
    exists (S m). eapply below_snoc; [exact Hm|]. split.
    + intros Hl%elem_of_root_indices. rewrite Hroot in Hl.
      by apply list_elem_of_singleton in Hl.
    + rewrite Hh. f_equal. lia.
Qed.

End tree_builder.

Section tree_builder_properties.
Context {E : enums}.

Lemma _create_tree_node all_tokens limit i t :
  _create_tree limit (Z.of_nat i) all_tokens = Ok t →
  ∃ token,
    all_tokens !! i = Some token
    ∧ t = {| index := Some (Z.of_nat i);
             label := dependency_label token;
             content := text_content token;
             lemma := t_lemma token;
             pos_tag := part_of_speech_tag token;
             children := children t;
             pos_tag_mapping := None;
             label_mapping := None |}
    ∧ Forall2 (fun c tc => _create_tree limit (Z.of_nat c) all_tokens = Ok tc)
              (child_indices all_tokens (Z.of_nat i)) (children t).
Proof.
  destruct limit as [|limit]; [done|]. rewrite _create_tree_eq.
  destruct (all_tokens !! i) as [token|] eqn:Htok;
    [rewrite (py_index_nat _ _ _ Htok)
    |by rewrite (py_index_nat_None _ _ Htok)].
  rewrite bind_Ok.
  destruct (mapR _ (child_indices all_tokens (Z.of_nat i)))
    as [ts|e] eqn:Hts; [|done].
  rewrite bind_Ok. intros [= <-]. exists token.
  split; [done|]. split; [done|].
  cbn [children]. apply mapR_Forall2 in Hts.
  eapply Forall2_impl; [exact Hts|]. intros c tc. apply _create_tree_S.
Qed.

Lemma _create_tree_label all_tokens limit c tc :
  _create_tree limit (Z.of_nat c) all_tokens = Ok tc →
  label_at all_tokens c = Some (label tc).
Proof.
  intros Hc. apply _create_tree_node in Hc as (token & Htok & -> & _).
  unfold label_at. by rewrite Htok.
Qed.

Lemma built_children_labels all_tokens limit cs ts :
  Forall2 (fun c tc => _create_tree limit (Z.of_nat c) all_tokens = Ok tc) cs ts →
  Forall (fun c => label_at all_tokens c ≠ Some ROOT) cs →
  Forall (fun tc => label tc ≠ ROOT) ts.
Proof.
  induction 1 as [|c tc cs ts Hc _ IH]; [constructor|].
  intros [Hl Hlabels]%Forall_cons. constructor; [|by apply IH].
  rewrite (_create_tree_label _ _ _ _ Hc) in Hl. congruence.
Qed.

Lemma built_children_indices all_tokens limit (i : nat) cs ts :
  Forall2 (fun c tc => _create_tree limit (Z.of_nat c) all_tokens = Ok tc) cs ts →
  Forall (fun c => c ≠ i) cs →
  Forall (fun tc => index tc ≠ Some (Z.of_nat i)) ts.
Proof.
  induction 1 as [|c tc cs ts Hc _ IH]; [constructor|].
  intros [Hne Hrest]%Forall_cons. constructor; [|by apply IH].
  apply _create_tree_node in Hc as (token & _ & -> & _).
  cbn [index]. intros [= Heq]. apply Hne. lia.
Qed.

Lemma child_indices_other all_tokens i k :
  rooted all_tokens k i →
  (∀ j, label_at all_tokens j = Some ROOT
        → head_at all_tokens j = Some (Z.of_nat j)) →
  child_indices all_tokens (Z.of_nat i)
  = filter (fun c => c ≠ i ∧ head_at all_tokens c = Some (Z.of_nat i))
           (seq 0 (length all_tokens)).
Proof.
  intros Hk Hconv. apply list_filter_iff. intros c.
  split; intros [H1 H2]; (split; [|done]).
  - intros ->.
    assert (rooted all_tokens (S k) i) as Hk' by (by econstructor).
    pose proof (rooted_unique_depth _ _ _ Hk _ Hk'). lia.
  - intros Hl. apply Hconv in Hl. rewrite H2 in Hl.
    injection Hl as Hl. apply H1. lia.
Qed.

(** C4. On a token array that follows the convention (every token labelled
    ROOT names itself as head), building at a token [i] that reaches a
    ROOT-labelled token by head references returns, when at least as many
    nested calls as there are tokens are allowed, the node of [tokens[i]]
    with one child, built the same way, for every other token whose head
    index is [i], in input order; no child is labelled ROOT and no child is
    built at [i] itself, so the self-referencing root sentinel is never
    made a child of itself. *)
Theorem create_tree_children all_tokens i k limit :
  rooted all_tokens k i →
  (∀ j, label_at all_tokens j = Some ROOT
        → head_at all_tokens j = Some (Z.of_nat j)) →
  (length all_tokens ≤ limit)%nat →
  ∃ token t,
    all_tokens !! i = Some token
    ∧ _create_tree limit (Z.of_nat i) all_tokens = Ok t
    ∧ index t = Some (Z.of_nat i)
    ∧ label t = dependency_label token
    ∧ content t = text_content token
    ∧ lemma t = t_lemma token
    ∧ pos_tag t = part_of_speech_tag token
    ∧ Forall2 (fun c tc => _create_tree limit (Z.of_nat c) all_tokens = Ok tc)
        (filter (fun c => c ≠ i ∧ head_at all_tokens c = Some (Z.of_nat i))
                (seq 0 (length all_tokens)))
        (children t)
    ∧ Forall (fun tc => label tc ≠ ROOT ∧ index tc ≠ Some (Z.of_nat i))
             (children t).
Proof.
  intros Hk Hconv Hlim.
  destruct (_create_tree_terminates all_tokens limit i k Hk) as [t Ht]; [lia|].
  destruct (_create_tree_node _ _ _ _ Ht) as (token & Htok & Heq & Hch).
  exists token, t. rewrite Heq. cbn [index label content lemma pos_tag children].
  rewrite <- Heq. repeat (split; [done|]).
  assert (Forall (fun tc => label tc ≠ ROOT) (children t)) as Hlabels.
  { eapply built_children_labels; [exact Hch|].
    apply Forall_forall. by intros c [? _]%elem_of_child_indices. }
  rewrite (child_indices_other _ _ _ Hk Hconv) in Hch.
  split; [done|].
  apply Forall_and. split; [done|].
  eapply built_children_indices; [exact Hch|].
  apply Forall_forall. by intros c [[? _] _]%list_elem_of_filter.
Qed.

End tree_builder_properties.

Lemma create_tree_children_witness :
  ∃ token t,
    cat_tokens !! 2%nat = Some token
    ∧ _create_tree (E:=language_v1) 5 2 cat_tokens = Ok t
    ∧ index t = Some 2
    ∧ label t = dependency_label token
    ∧ content t = text_content token
    ∧ lemma t = t_lemma token
    ∧ pos_tag t = part_of_speech_tag token
    ∧ Forall2 (fun c tc =>
                 _create_tree (E:=language_v1) 5 (Z.of_nat c) cat_tokens = Ok tc)
        [1%nat; 4%nat] (children t).
Proof.
  destruct (create_tree_children (E:=language_v1) cat_tokens 2 0 5)
    as (token & t & H1 & H2 & H3 & H4 & H5 & H6 & H7 & H8 & _).
  - by apply rooted_root.
  - intros j. do 5 (destruct j as [|j]; [by vm_compute|]). by vm_compute.
  - simpl. lia.
  - exists token, t. repeat (split; [done|]). exact H8.
Defined.

(** ** Walking the built tree *)

(** C5. For a token array with exactly one ROOT-labelled token, at [r],
    whose head references form a tree rooted at [r], building at [r] (with
    a recursion limit of at least the number of tokens) returns a tree
    whose walk has exactly one node per token, the [index] attributes being
    a permutation of [0 .. N-1]; and the walk of any node is the node itself
    followed by the walks of its children in child order. *)
Theorem walk_create_tree_indices {E : enums} all_tokens r limit :
  root_indices all_tokens = [r] →
  tree_rooted_at all_tokens r = true →
  (length all_tokens ≤ limit)%nat →
  ∃ t,
    _create_tree limit (Z.of_nat r) all_tokens = Ok t
    ∧ length (walk t) = length all_tokens
    ∧ index <$> walk t
      ≡ₚ (fun j => Some (Z.of_nat j)) <$> seq 0 (length all_tokens)
    ∧ ∀ n, walk n = n :: flat_map walk (children n).
Proof.
  intros Hroot Htree Hlim.
  assert (rooted all_tokens 0 r) as Hr.
  { constructor. apply elem_of_root_indices. rewrite Hroot. by left. }
  destruct (_create_tree_terminates all_tokens limit r 0 Hr) as [t Ht]; [lia|].
  pose proof (_create_tree_indices _ _ _ _ Ht) as Hidx.
  assert (subtree_indices all_tokens limit r ≡ₚ seq 0 (length all_tokens))
    as Hperm.
  { apply NoDup_Permutation.
    - by eapply NoDup_subtree_indices.
    - apply NoDup_seq.
    - intros j. rewrite elem_of_subtree_indices, elem_of_seq. split.
      + intros (m & _ & Hm).
        pose proof (rooted_lt _ _ _ (below_rooted _ _ _ _ Hm _ Hr)). lia.
      + intros [_ Hj]. unfold tree_rooted_at in Htree.
        rewrite forallb_forall in Htree.
        destruct (climbs_below _ _ (length all_tokens) Hroot j) as [m Hm].
        { apply Htree, list_elem_of_In, elem_of_seq. lia. }
        exists m. split; [|done].
        pose proof (rooted_depth_bound _ _ _ (below_rooted _ _ _ _ Hm _ Hr)).
        lia. }
  exists t. split; [done|]. split; [|split].
  - rewrite <- (length_fmap index), Hidx, length_fmap, Hperm.
    apply length_seq.
  - by rewrite Hidx, Hperm.
  - apply walk_eq.
Qed.

Lemma walk_create_tree_indices_witness :
  ∃ t,
    _create_tree (E:=language_v1) 5 2 cat_tokens = Ok t
    ∧ length (walk t) = 5%nat
    ∧ index <$> walk t ≡ₚ [Some 0; Some 1; Some 2; Some 3; Some 4].
Proof.
  destruct (walk_create_tree_indices (E:=language_v1) cat_tokens 2 5)
    as (t & H1 & H2 & H3 & _).
  - reflexivity.
  - reflexivity.
  - simpl. lia.
  - exists t. split; [done|]. split; [done|]. exact H3.
Defined.

(** ** Assembling the document *)

Lemma sentence_root_indices_eq {E : enums} all_tokens :
  map fst (filter (fun it : nat * Token => dependency_label it.2 = ROOT)
                  (enumerate all_tokens))
  = root_indices all_tokens.
Proof.
  unfold root_indices.
  rewrite <- (filter_enumerate
                (fun it : nat * Token => dependency_label it.2 = ROOT)).
  - done.
  - intros j a Hj. unfold label_at. rewrite Hj. simpl.
    split; congruence.
Qed.

(** C7. With a recursion limit of at least the number of tokens, document
    assembly returns a Document, without an error, that has one Sentence
    per pair of the sentence texts zipped with the ROOT-token indices: the
    pairs stop with the shorter sequence, so the Document has
    [min (number of texts) (number of ROOT tokens)] sentences, the [k]-th
    made of the [k]-th text and the tree built at the [k]-th ROOT index. *)
Theorem create_nlst_document_truncates {E : enums} response limit :
  (length (r_tokens response) ≤ limit)%nat →
  ∃ doc,
    create_nlst_document_from_response limit response = Ok doc
    ∧ language doc = r_language response
    ∧ length (sentences doc)
      = (length (r_sentences response)
         `min` length (root_indices (r_tokens response)))%nat
    ∧ Forall2 (fun sr s =>
                 s_content s = sr.1
                 ∧ _create_tree limit (Z.of_nat sr.2) (r_tokens response)
                   = Ok (root s))
        (zip (r_sentences response) (root_indices (r_tokens response)))
        (sentences doc).
Proof.
  intros Hlim. unfold create_nlst_document_from_response. cbv zeta.
  rewrite sentence_root_indices_eq.
  destruct (mapR_exists
    (fun sr : string * nat =>
       root ← _create_tree limit (Z.of_nat sr.2) (r_tokens response);
       Ok {| s_content := sr.1; root := root |})
    (zip (r_sentences response) (root_indices (r_tokens response))))
    as [ss Hss].
  { intros [text r] Hr%elem_of_zip_r.
    apply elem_of_root_indices in Hr.
    destruct (_create_tree_terminates (r_tokens response) limit r 0)
      as [t Ht]; [by constructor|lia|].
    cbn [fst snd]. rewrite Ht, bind_Ok. by eexists. }
  rewrite Hss, bind_Ok. eexists. split; [done|]. cbn [language sentences].
  split; [done|].
  apply mapR_Forall2 in Hss.
  assert (Forall2 (fun (sr : string * nat) s =>
            s_content s = sr.1
            ∧ _create_tree limit (Z.of_nat sr.2) (r_tokens response)
              = Ok (root s))
            (zip (r_sentences response) (root_indices (r_tokens response)))
            ss) as Hall.
  { eapply Forall2_impl; [exact Hss|]. intros sr s. cbn beta.
    destruct (_create_tree limit (Z.of_nat sr.2) (r_tokens response));
      [|done].
    rewrite bind_Ok. by intros [= <-]. }
  split; [|done].
  by rewrite <- (Forall2_length _ _ _ Hall), length_zip.
Qed.

Lemma create_nlst_document_truncates_witness :
  ∃ doc,
    create_nlst_document_from_response (E:=language_v1) 5 cat_response = Ok doc
    ∧ length (r_sentences cat_response) = 2%nat
    ∧ length (sentences doc) = 1%nat.
Proof.
  destruct (create_nlst_document_truncates (E:=language_v1) cat_response 5)
    as (doc & H1 & _ & H2 & _).
  - simpl. lia.
  - exists doc. split; [done|]. split; [done|]. exact H2.
Defined.

(** * Further properties *)

(** ** Triples and the tree they come from *)

Lemma elem_of_flat_map {A B} (f : A → list B) (l : list A) (b : B) :
  b ∈ flat_map f l ↔ ∃ a, a ∈ l ∧ b ∈ f a.
Proof.
  rewrite flat_map_bind, list_elem_of_bind. naive_solver.
Qed.

Lemma elem_of_map {A B} (f : A → B) (l : list A) (b : B) :
  b ∈ map f l ↔ ∃ a, b = f a ∧ a ∈ l.
Proof. apply (list_elem_of_fmap f l b). Qed.

Lemma elem_of_cross ls h rs (l h' r : Tree) :
  (l, h', r) ∈ cross ls h rs ↔ h' = h ∧ l ∈ ls ∧ r ∈ rs.
Proof.
  unfold cross. rewrite elem_of_flat_map. split.
  - intros (l0 & Hl0 & (r0 & [= -> -> ->] & Hr0)%elem_of_map). done.
  - intros (-> & Hl & Hr). exists l. split; [done|].
    apply elem_of_map. by exists r.
Qed.

Lemma elem_of_elif_head_triples L P R n (l h r : Tree) :
  (l, h, r) ∈ elif_head_triples L P R n
  ↔ h = n ∧ pos_tag h = P ∧ l ∈ children h ∧ r ∈ children h
    ∧ label l = L ∧ label r = R ∧ label r ≠ L.
Proof.
  unfold elif_head_triples. destruct (decide (pos_tag n = P)) as [Hp|Hp].
  - rewrite elem_of_cross, !list_elem_of_filter. naive_solver.
  - split; [by intros ?%elem_of_nil|]. naive_solver.
Qed.

Lemma elem_of_visited ss n :
  n ∈ visited ss ↔ ∃ s, s ∈ ss ∧ n ∈ walk (root s).
Proof. apply elem_of_flat_map. Qed.

Lemma elem_of_find_generic_triples src ss L P R (l h r : Tree) :
  sentences_of src = Ok ss →
  (l, h, r) ∈ yielded (find_generic_triples src L P R)
  ↔ (∃ s, s ∈ ss ∧ h ∈ walk (root s)) ∧ pos_tag h = P
    ∧ l ∈ children h ∧ r ∈ children h
    ∧ label l = L ∧ label r = R ∧ label r ≠ L.
Proof.
  intros Hs. rewrite (find_generic_triples_sentences _ _ _ _ _ Hs).
  cbn [yielded]. rewrite elem_of_flat_map. split.
  - intros (n & Hn%elem_of_visited & Ht%elem_of_elif_head_triples).
    destruct Ht as (-> & Ht). done.
  - intros (Hh%elem_of_visited & Ht). exists h. split; [done|].
    apply elem_of_elif_head_triples. done.
Qed.

(** X1. On a Sentence or a Document, a triple is yielded by the generic
    matcher exactly when its head is a node of some sentence's walk with the
    requested [pos_tag], its left and right members are direct children of
    that head, the left one labelled [left_label] and the right one
    labelled [right_label] but not [left_label]; in particular the two
    dependents of a triple are never the same node. *)
Theorem find_generic_triples_sound_complete src ss L P R (l h r : Tree) :
  sentences_of src = Ok ss →
  ((l, h, r) ∈ yielded (find_generic_triples src L P R)
   ↔ (∃ s, s ∈ ss ∧ h ∈ walk (root s)) ∧ pos_tag h = P
     ∧ l ∈ children h ∧ r ∈ children h
     ∧ label l = L ∧ label r = R ∧ label r ≠ L)
  ∧ ((l, h, r) ∈ yielded (find_generic_triples src L P R) → l ≠ r).
Proof.
  intros Hs. split; [by apply elem_of_find_generic_triples|].
  intros (_ & _ & _ & _ & Hl & _ & Hr)%(elem_of_find_generic_triples _ _ _ _ _ _ _ _ Hs).
  congruence.
Qed.

Lemma find_generic_triples_sound_complete_witness :
  (leaf 0 28 "she" 8, gave, leaf 3 43 "to" 2)
  ∈ yielded (find_generic_triples (PyDocument two_sentences) 28 11 43).
Proof.
  apply (find_generic_triples_sound_complete (PyDocument two_sentences)
           (sentences two_sentences) 28 11 43 _ _ _ eq_refl).
  split; [|repeat split; try done; set_solver].
  exists (mkSentence "she gave books to" gave). split; [set_solver|].
  by left.
Defined.

(** X2. On a Document the generic matcher is the per-sentence matcher run
    on each sentence in turn: the yielded sequence is the concatenation, in
    document order, of what it yields on each sentence alone, and a
    Document without sentences yields nothing. *)
Theorem find_generic_triples_document d L P R :
  find_generic_triples (PyDocument d) L P R
  = gen_chain (map (fun s => find_generic_triples (PySentence s) L P R)
                   (sentences d))
  ∧ yielded (find_generic_triples (PyDocument d) L P R)
    = flat_map (fun s => yielded (find_generic_triples (PySentence s) L P R))
               (sentences d)
  ∧ find_generic_triples (PyDocument (mkDocument (language d) [])) L P R
    = Gen [] None.
Proof.
  assert (find_generic_triples (PyDocument d) L P R
          = Gen (flat_map (fun s =>
                   yielded (find_generic_triples (PySentence s) L P R))
                   (sentences d)) None) as Heq.
  { unfold find_generic_triples. cbn [sentences_of yielded]. f_equal.
    apply flat_map_ext. intros s. cbn [flat_map]. by rewrite app_nil_r. }
  split; [|split; [by rewrite Heq|done]].
  rewrite Heq, gen_chain_returned.
  - f_equal. by rewrite flat_map_concat_map, flat_map_concat_map, map_map.
  - apply Forall_forall. intros g (s & -> & _)%elem_of_map. done.
Qed.

(** ** Verb triples and verb nodes *)

Lemma yielded_gen_seq {A} (g1 g2 : gen A) :
  raised g1 = None → yielded (gen_seq g1 g2) = yielded g1 ++ yielded g2.
Proof. intros H. unfold gen_seq. by rewrite H. Qed.

Lemma multi_criteria_one_two src ss (a v x y : Z) :
  sentences_of src = Ok ss →
  find_generic_triples_multi_criteria src [a] [v] [x; y]
  = Gen (yielded (find_generic_triples src a v x)
         ++ yielded (find_generic_triples src a v y)) None.
Proof.
  intros Hs. rewrite multi_criteria_chain. cbn [flat_map map app].
  rewrite gen_chain_returned.
  - cbn [flat_map]. by rewrite app_nil_r.
  - repeat constructor;
      by rewrite (find_generic_triples_sentences _ _ _ _ _ Hs).
Qed.

Section verb_nodes.
Context {E : enums}.

Lemma elem_of_filtered_walk_verb t n :
  n ∈ filtered_walk t verb_filter ↔ n ∈ walk t ∧ pos_tag n = VERB.
Proof.
  unfold filtered_walk, verb_filter.
  rewrite !list_elem_of_In, filter_In.
  destruct (decide (pos_tag n = VERB)); naive_solver.
Qed.

(** X3. On a Sentence or a Document, every triple [find_verb_triples]
    yields has a head that [filtered_walk] with [verb_filter] enumerates in
    some sentence (a node of the walk tagged VERB), and two direct children
    of that head as dependents: from the active voice a child labelled
    NSUBJ with a child labelled DOBJ or PREP, from the passive voice a
    child labelled NSUBJPASS with a child labelled POBJ or PREP. Conversely
    [filtered_walk] with [verb_filter] yields exactly the nodes of the walk
    that are tagged VERB. *)
Theorem find_verb_triples_sound src ss active passive (l h r : Tree) :
  sentences_of src = Ok ss →
  ((l, h, r) ∈ yielded (find_verb_triples src active passive) →
   (∃ s, s ∈ ss ∧ h ∈ filtered_walk (root s) verb_filter)
   ∧ l ∈ children h ∧ r ∈ children h
   ∧ ((active = true ∧ label l = NSUBJ
       ∧ (label r = DOBJ ∨ label r = PREP))
      ∨ (passive = true ∧ label l = NSUBJPASS
         ∧ (label r = POBJ ∨ label r = PREP))))
  ∧ (∀ t n, n ∈ filtered_walk t verb_filter ↔ n ∈ walk t ∧ pos_tag n = VERB).
Proof.
  intros Hs. split; [|apply elem_of_filtered_walk_verb].
  assert (∀ a x, (l, h, r) ∈ yielded (find_generic_triples src a VERB x) →
            (∃ s, s ∈ ss ∧ h ∈ filtered_walk (root s) verb_filter)
            ∧ l ∈ children h ∧ r ∈ children h ∧ label l = a ∧ label r = x)
    as Hone.
  { intros a x Ht.
    apply (elem_of_find_generic_triples _ _ _ _ _ _ _ _ Hs) in Ht
      as ((s & Hs1 & Hs2) & Hp & Hl & Hr & Hll & Hlr & _).
    split; [|done]. exists s. split; [done|].
    by apply elem_of_filtered_walk_verb. }
  unfold find_verb_triples.
  destruct active, passive;
    rewrite ?(multi_criteria_one_two _ _ _ _ _ _ Hs);
    rewrite yielded_gen_seq by done; cbn [yielded gen_empty];
    intros Hin; rewrite ?elem_of_app in Hin; destruct_or?;
    try (by apply elem_of_nil in Hin);
    apply Hone in Hin as (? & ? & ? & ? & ?); naive_solver.
Qed.

End verb_nodes.

Lemma find_verb_triples_sound_witness :
  (∃ s, s ∈ [chased_sentence]
        ∧ chased ∈ filtered_walk (root s) (verb_filter (E:=language_v1)))
  ∧ label (leaf 0 28 "cat" 6) = 28.
Proof.
  assert ((leaf 0 28 "cat" 6, chased, leaf 2 18 "mouse" 6)
          ∈ yielded (find_verb_triples (E:=language_v1)
                       (PySentence chased_sentence) true false)) as Hin.
  { vm_compute. by left. }
  destruct (proj1 (find_verb_triples_sound (E:=language_v1)
                     (PySentence chased_sentence) [chased_sentence]
                     true false _ _ _ eq_refl) Hin)
    as (Hs & _ & _ & [(_ & Hl & _)|(Hp & _)]); [|discriminate Hp].
  split; [exact Hs|exact Hl].
Defined.

(** ** The walk *)

Lemma walk_closed_aux t :
  ∀ n, n ∈ walk t →
    (∀ m, m ∈ walk n → m ∈ walk t) ∧ (∀ c, c ∈ children n → c ∈ walk t).
Proof.
  induction t as [i l c le p cs pm lm IH] using Tree_ind_nested.
  intros n. rewrite walk_eq. cbn [children].
  intros [->|Hn]%elem_of_cons.
  - split.
    + intros m. by rewrite (walk_eq (mkTree _ _ _ _ _ _ _ _)).
    + intros c0 Hc0. right. apply elem_of_flat_map. exists c0.
      split; [done|]. rewrite walk_eq. by left.
  - apply elem_of_flat_map in Hn as (c0 & Hc0 & Hn).
    rewrite Forall_forall in IH. destruct (IH c0 Hc0 n Hn) as [H1 H2].
    split.
    + intros m Hm. right. apply elem_of_flat_map. exists c0. auto.
    + intros c1 Hc1. right. apply elem_of_flat_map. exists c0. auto.
Qed.

(** X4. The walk of a tree starts with the tree itself and is closed under
    descent: for every node it yields it also yields that node's children
    and everything the node's own walk yields. *)
Theorem walk_closed t :
  walk t !! 0%nat = Some t
  ∧ ∀ n, n ∈ walk t →
      (∀ c, c ∈ children n → c ∈ walk t)
      ∧ (∀ m, m ∈ walk n → m ∈ walk t).
Proof.
  split; [by rewrite walk_eq|].
  intros n Hn. destruct (walk_closed_aux t n Hn). done.
Qed.

Lemma walk_closed_witness :
  leaf 2 16 "c" 5 ∈ walk chain3.
Proof.
  destruct (walk_closed chain3) as [_ H].
  destruct (H (mkTree (Some 1) 18 "b" "b" 6 [leaf 2 16 "c" 5] None None))
    as [Hc _].
  - right. by left.
  - apply Hc. by left.
Defined.

(** ** The printable tree with a maximum depth *)

Lemma walk_depth_ge t : ∀ depth dn, dn ∈ walk_depth t depth → depth ≤ dn.1.
Proof.
  induction t as [i l c le p cs pm lm IH] using Tree_ind_nested.
  intros depth dn. rewrite walk_depth_eq. cbn [children].
  intros [->|Hin]%elem_of_cons; [done|].
  apply elem_of_flat_map in Hin as (n & Hn & Hin).
  rewrite Forall_forall in IH. specialize (IH n Hn (depth + 1) dn Hin). lia.
Qed.

Lemma filter_flat_map {A B} (P : B → Prop) `{∀ x, Decision (P x)}
    (f : A → list B) (l : list A) :
  filter P (flat_map f l) = flat_map (fun a => filter P (f a)) l.
Proof.
  induction l as [|a l IH]; [done|].
  cbn [flat_map]. by rewrite filter_app, IH.
Qed.

Lemma filter_none {A} (P : A → Prop) `{∀ x, Decision (P x)} (l : list A) :
  (∀ x, x ∈ l → ¬ P x) → filter P l = [].
Proof.
  induction l as [|a l IH]; intros Hl; [done|].
  rewrite filter_cons, decide_False by (apply Hl; by left).
  apply IH. intros x Hx. apply Hl. by right.
Qed.

Lemma _get_tree_statements_within verbose t :
  ∀ m depth, 0 ≤ m → 1 ≤ depth →
    _get_tree_statements t (Some m) depth verbose
    = mapR (tree_line indented_prefix verbose)
           (filter (fun dn => dn.1 < depth + m) (walk_depth t depth)).
Proof.
  induction t as [i l c le p cs pm lm IH] using Tree_ind_nested.
  intros m depth Hm Hd. rewrite _get_tree_statements_eq.
  destruct (decide (Some m = Some 0)) as [[= ->]|Hne].
  - rewrite filter_none; [done|].
    intros dn Hdn%walk_depth_ge. lia.
  - assert (0 < m) as Hpos by (destruct (decide (m = 0)); [congruence|lia]).
    rewrite walk_depth_eq, filter_cons.
    rewrite decide_True by (cbn [fst]; lia).
    rewrite mapR_cons, tree_line_eq.
    cbn [children fmap option_fmap option_map].
    destruct (get_string_repr _ verbose) as [repr|e];
      rewrite ?bind_Ok, ?bind_Raise; [|done].
    rewrite filter_flat_map.
    rewrite (extend_statements_lines _
               (fun n => filter (fun dn => dn.1 < depth + m)
                                (walk_depth n (depth + 1)))
               (tree_line indented_prefix verbose)).
    + rewrite line_prefix_indented by done.
      by destruct (mapR _ (flat_map _ cs)).
    + eapply Forall_impl; [exact IH|]. intros n Hn. cbn beta.
      rewrite Hn by lia. f_equal. apply list_filter_iff. intros dn. lia.
Qed.

(** X5. With a maximum depth [m >= 0] the printable tree has exactly the
    lines of the nodes at depth at most [m] (the root being at depth 1), in
    pre-order and with the same prefixes as the unlimited tree; deeper
    nodes are not even formatted. With [max_depth = 1] the result is the
    root's own string representation. *)
Theorem get_printable_tree_within t m verbose :
  0 ≤ m →
  get_printable_tree t (Some m) verbose
  = (lines ← mapR (tree_line indented_prefix verbose)
                  (filter (fun dn => dn.1 ≤ m) (walk_depth t 1));
     Ok (join newline lines))
  ∧ get_printable_tree t (Some 1) verbose = get_string_repr t verbose.
Proof.
  intros Hm. unfold get_printable_tree. split.
  - rewrite _get_tree_statements_within by lia.
    do 2 f_equal. apply list_filter_iff. intros dn. lia.
  - rewrite _get_tree_statements_within by lia.
    rewrite walk_depth_eq, filter_cons, decide_True by (cbn [fst]; lia).
    rewrite filter_none.
    + rewrite mapR_cons, tree_line_eq.
      destruct (get_string_repr t verbose) as [repr|e]; [|done].
      done.
    + intros dn (n & _ & Hdn%walk_depth_ge)%elem_of_flat_map. lia.
Qed.

Lemma get_printable_tree_within_witness :
  get_printable_tree chain3 (Some 2) false
  = Ok ("a (pos_tag=11, label=54)" +:+ newline +:+ "|- b (pos_tag=6, label=18)").
Proof.
  destruct (get_printable_tree_within chain3 2 false) as [H _]; [lia|].
  rewrite H. vm_compute. reflexivity.
Defined.

(** ** Errors of the string representation *)

Lemma display_code_outcome mapping code :
  (∃ s, display_code mapping code = Ok s)
  ∨ (display_code mapping code = Raise KeyError
     ∧ ∃ m, mapping = Some m ∧ m ≠ ∅ ∧ m !! code = None).
Proof.
  unfold display_code. destruct mapping as [m|]; [|by left; eexists].
  destruct (decide (m = ∅)); [by left; eexists|].
  destruct (m !! code) eqn:Hm; [by left; eexists|].
  right. split; [done|]. by exists m.
Qed.

Lemma get_string_repr_outcome n verbose :
  (∃ s, get_string_repr n verbose = Ok s
        ∧ (∃ s1, display_code (pos_tag_mapping n) (pos_tag n) = Ok s1)
        ∧ (∃ s2, display_code (label_mapping n) (label n) = Ok s2))
  ∨ (get_string_repr n verbose = Raise KeyError
     ∧ ((∃ m, pos_tag_mapping n = Some m ∧ m ≠ ∅ ∧ m !! pos_tag n = None)
        ∨ (∃ m, label_mapping n = Some m ∧ m ≠ ∅ ∧ m !! label n = None))).
Proof.
  unfold get_string_repr.
  destruct (display_code_outcome (pos_tag_mapping n) (pos_tag n))
    as [[s1 H1]|[H1 Hm1]]; rewrite H1; [|right; by auto].
  destruct (display_code_outcome (label_mapping n) (label n))
    as [[s2 H2]|[H2 Hm2]]; rewrite H2; [|right; by auto].
  left. rewrite !bind_Ok. destruct verbose; eexists; eauto.
Qed.

Lemma mapR_outcome {A B} (f : A → result B) (e : exn) (l : list A) :
  (∀ a, a ∈ l → (∃ b, f a = Ok b) ∨ f a = Raise e) →
  ((∃ bs, mapR f l = Ok bs) ∧ ∀ a, a ∈ l → ∃ b, f a = Ok b)
  ∨ (mapR f l = Raise e ∧ ∃ a, a ∈ l ∧ f a = Raise e).
Proof.
  induction l as [|a l IH]; intros Hf.
  - left. split; [by eexists|]. by intros a ?%elem_of_nil.
  - rewrite mapR_cons.
    destruct (Hf a) as [[b Hb]|Ha]; [by left| |].
    + rewrite Hb, bind_Ok.
      destruct IH as [[[bs Hbs] Hall]|[Hr (x & Hx & Hfx)]].
      * intros x Hx. apply Hf. by right.
      * left. rewrite Hbs, bind_Ok. split; [by eexists|].
        intros x [->|Hx]%elem_of_cons; [by eexists|by apply Hall].
      * right. rewrite Hr. split; [done|]. exists x. split; [by right|done].
    + right. rewrite Ha. split; [done|]. exists a. split; [by left|done].
Qed.

(** X6. Printing a tree without a maximum depth can fail in one way only:
    it raises [KeyError] exactly when some node of the walk has a non-empty
    [pos_tag_mapping] without its [pos_tag], or a non-empty [label_mapping]
    without its [label]; otherwise it returns a string. A missing ([None])
    or empty mapping never fails. *)
Theorem get_printable_tree_errors t verbose :
  ((∃ s, get_printable_tree t None verbose = Ok s)
   ∨ get_printable_tree t None verbose = Raise KeyError)
  ∧ (get_printable_tree t None verbose = Raise KeyError
     ↔ ∃ n, n ∈ walk t
            ∧ ((∃ m, pos_tag_mapping n = Some m ∧ m ≠ ∅
                     ∧ m !! pos_tag n = None)
               ∨ (∃ m, label_mapping n = Some m ∧ m ≠ ∅
                       ∧ m !! label n = None))).
Proof.
  unfold get_printable_tree. rewrite _get_tree_statements_lines by lia.
  assert (∀ dn, dn ∈ walk_depth t 1 →
            (∃ b, tree_line indented_prefix verbose dn = Ok b)
            ∨ tree_line indented_prefix verbose dn = Raise KeyError) as Hline.
  { intros [d n] _. rewrite tree_line_eq.
    destruct (get_string_repr_outcome n verbose) as [(s & -> & _)|[-> _]];
      [left; by eexists|by right]. }
  destruct (mapR_outcome _ KeyError _ Hline)
    as [[[bs Hbs] Hall]|[Hr ([d n] & Hn & Hfn)]].
  - rewrite Hbs, bind_Ok. split; [left; by eexists|].
    split; [done|]. intros (n & Hn & Hlack). exfalso.
    rewrite <- walk_depth_walk with (depth := 1) in Hn.
    apply elem_of_map in Hn as ([d n'] & -> & Hn).
    destruct (Hall _ Hn) as [b Hb]. rewrite tree_line_eq in Hb. cbn [snd] in *.
    destruct (get_string_repr_outcome n' verbose)
      as [(s & _ & [s1 H1] & [s2 H2])|[Hraise _]].
    + unfold display_code in H1, H2.
      destruct Hlack as [(m & Hm & Hne & Hk)|(m & Hm & Hne & Hk)].
      * rewrite Hm, decide_False, Hk in H1 by done. done.
      * rewrite Hm, decide_False, Hk in H2 by done. done.
    + by rewrite Hraise in Hb.
  - rewrite Hr, bind_Raise. split; [by right|]. split; [|done].
    intros _. exists n. split.
    + rewrite <- walk_depth_walk with (depth := 1).
      apply elem_of_map. by exists (d, n).
    + rewrite tree_line_eq in Hfn.
      destruct (get_string_repr_outcome n verbose)
        as [(s & Hs & _)|[_ Hlack]]; [by rewrite Hs in Hfn|done].
Qed.

(** ** More on building the tree *)

Section tree_builder_extras.
Context {E : enums}.
Variable all_tokens : list Token.

Lemma py_index_out_of_range {A} (l : list A) (p : Z) :
  p < - Z.of_nat (length l) ∨ Z.of_nat (length l) ≤ p →
  py_index l p = Raise IndexError.
Proof.
  intros Hp. unfold py_index. cbv zeta.
  destruct (decide (p < 0)) as [Hneg|Hpos].
  - destruct (decide (0 ≤ p + Z.of_nat (length l))) as [Hj|Hj]; [|done].
    destruct Hp as [Hp|Hp]; [lia|].
    pose proof (Zle_0_nat (length l)). lia.
  - rewrite decide_True by lia.
    rewrite (proj2 (lookup_ge_None l (Z.to_nat p))); [done|].
    destruct Hp as [Hp|Hp]; lia.
Qed.

(** X7. A token index outside [-N, N) makes [_create_tree] raise
    [IndexError] at once (with at least one call allowed); in particular
    every index does on an empty token array. *)
Theorem create_tree_index_error limit p :
  p < - Z.of_nat (length all_tokens) ∨ Z.of_nat (length all_tokens) ≤ p →
  _create_tree (S limit) p all_tokens = Raise IndexError.
Proof.
  intros Hp. rewrite _create_tree_eq.
  by rewrite (py_index_out_of_range _ _ Hp).
Qed.

Lemma _create_tree_outcome limit :
  ∀ c, (c < length all_tokens)%nat →
    (∃ t, _create_tree limit (Z.of_nat c) all_tokens = Ok t)
    ∨ _create_tree limit (Z.of_nat c) all_tokens = Raise RecursionError.
Proof.
  induction limit as [|limit IH]; intros c Hc; [by right|].
  rewrite _create_tree_eq.
  destruct (lookup_lt_is_Some_2 all_tokens c Hc) as [token Htok].
  rewrite (py_index_nat _ _ _ Htok), bind_Ok.
  destruct (mapR_outcome
              (fun c => _create_tree limit (Z.of_nat c) all_tokens)
              RecursionError (child_indices all_tokens (Z.of_nat c)))
    as [[[ts Hts] _]|[Hr _]].
  - intros c' [_ Hc']%elem_of_child_indices. apply IH.
    by eapply head_at_lookup.
  - left. rewrite Hts, bind_Ok. by eexists.
  - right. by rewrite Hr.
Qed.

(** X8. A token that is not labelled ROOT and names itself as its head is
    its own child: building at it never returns, whatever the number of
    nested calls allowed, the recursion only ends with [RecursionError]. *)
Theorem create_tree_self_loop i :
  edge all_tokens i i →
  ∀ limit, _create_tree limit (Z.of_nat i) all_tokens = Raise RecursionError.
Proof.
  intros Hi limit. induction limit as [|limit IH]; [done|].
  rewrite _create_tree_eq.
  assert (i < length all_tokens)%nat as Hlt
    by (destruct Hi as [_ Hh]; by eapply head_at_lookup).
  destruct (lookup_lt_is_Some_2 all_tokens i Hlt) as [token Htok].
  rewrite (py_index_nat _ _ _ Htok), bind_Ok.
  destruct (mapR_outcome
              (fun c => _create_tree limit (Z.of_nat c) all_tokens)
              RecursionError (child_indices all_tokens (Z.of_nat i)))
    as [[_ Hall]|[Hr _]].
  - intros c' [_ Hc']%elem_of_child_indices. apply _create_tree_outcome.
    by eapply head_at_lookup.
  - destruct (Hall i) as [t Ht]; [by apply elem_of_child_indices|].
    by rewrite IH in Ht.
  - by rewrite Hr.
Qed.

Lemma built_children_edges limit p cs ts :
  Forall2 (fun c tc => _create_tree limit (Z.of_nat c) all_tokens = Ok tc) cs ts →
  Forall (fun c => edge all_tokens p c) cs →
  Forall (fun tc =>
            ∃ jc tokc,
              index tc = Some (Z.of_nat jc)
              ∧ all_tokens !! jc = Some tokc
              ∧ head_token_index tokc = Z.of_nat p
              ∧ dependency_label tokc ≠ ROOT
              ∧ label tc = dependency_label tokc) ts.
Proof.
  induction 1 as [|c tc cs ts Hc _ IH]; [constructor|].
  intros [[Hlab Hhead] Hedges]%Forall_cons. constructor; [|by apply IH].
  apply _create_tree_node in Hc as (tokc & Htokc & -> & _).
  exists c, tokc. unfold label_at, head_at in *. rewrite Htokc in *.
  cbn [index label fmap option_fmap option_map] in *.
  repeat split; congruence.
Qed.

Lemma _create_tree_invariant limit :
  ∀ i t, _create_tree limit (Z.of_nat i) all_tokens = Ok t →
    ∀ n, n ∈ walk t →
      ∃ j tok,
        index n = Some (Z.of_nat j)
        ∧ all_tokens !! j = Some tok
        ∧ label n = dependency_label tok
        ∧ content n = text_content tok
        ∧ lemma n = t_lemma tok
        ∧ pos_tag n = part_of_speech_tag tok
        ∧ pos_tag_mapping n = None ∧ label_mapping n = None
        ∧ Forall (fun c =>
                    ∃ jc tokc,
                      index c = Some (Z.of_nat jc)
                      ∧ all_tokens !! jc = Some tokc
                      ∧ head_token_index tokc = Z.of_nat j
                      ∧ dependency_label tokc ≠ ROOT
                      ∧ label c = dependency_label tokc) (children n).
Proof.
  induction limit as [|limit IH]; intros i t Ht n Hn; [done|].
  destruct (_create_tree_node _ _ _ _ Ht) as (tok & Htok & Heq & Hch).
  rewrite _create_tree_eq, (py_index_nat _ _ _ Htok), bind_Ok in Ht.
  destruct (mapR _ (child_indices all_tokens (Z.of_nat i)))
    as [ts|e] eqn:Hts; [|done].
  rewrite bind_Ok in Ht. injection Ht as Ht.
  rewrite walk_eq in Hn. apply elem_of_cons in Hn as [->|Hn].
  - exists i, tok. rewrite Heq.
    cbn [index label content lemma pos_tag children pos_tag_mapping
         label_mapping].
    repeat (split; [done|]).
    eapply built_children_edges; [exact Hch|].
    apply Forall_forall. by intros c Hc%elem_of_child_indices.
  - rewrite <- Ht in Hn. cbn [children] in Hn.
    apply elem_of_flat_map in Hn as (tc & Htc & Hn).
    apply mapR_Forall2 in Hts.
    destruct (proj1 (list_elem_of_lookup _ _) Htc) as [k Hk].
    destruct (Forall2_lookup_r _ _ _ _ _ Hts Hk) as (c & _ & Hc).
    by apply (IH c tc Hc).
Qed.

Lemma built_children_heads limit (p : Z) cs ts :
  Forall2 (fun c tc => _create_tree limit (Z.of_nat c) all_tokens = Ok tc) cs ts →
  Forall (fun c => label_at all_tokens c ≠ Some ROOT
                   ∧ head_at all_tokens c = Some p) cs →
  Forall (fun tc =>
            ∃ jc tokc,
              index tc = Some (Z.of_nat jc)
              ∧ all_tokens !! jc = Some tokc
              ∧ head_token_index tokc = p
              ∧ dependency_label tokc ≠ ROOT
              ∧ label tc = dependency_label tokc) ts.
Proof.
  induction 1 as [|c tc cs ts Hc _ IH]; [constructor|].
  intros [[Hlab Hhead] Hrest]%Forall_cons. constructor; [|by apply IH].
  apply _create_tree_node in Hc as (tokc & Htokc & -> & _).
  exists c, tokc. unfold label_at, head_at in *. rewrite Htokc in *.
  cbn [index label fmap option_fmap option_map] in *.
  repeat split; congruence.
Qed.

(** X9. In a tree returned by [_create_tree], at whatever index it was
    built (a negative one included), the root's [index] is that index and
    every node carries the fields of the token its [index] denotes under
    Python indexing: label, content, lemma and tag are that token's, with
    no display mapping; and every child of a node is built at the position
    of a token that is not labelled ROOT and whose head index is the
    node's [index]. *)
Theorem create_tree_nodes limit (p : Z) t :
  _create_tree limit p all_tokens = Ok t →
  index t = Some p
  ∧ ∀ n, n ∈ walk t →
      ∃ q tok,
        index n = Some q
        ∧ py_index all_tokens q = Ok tok
        ∧ label n = dependency_label tok
        ∧ content n = text_content tok
        ∧ lemma n = t_lemma tok
        ∧ pos_tag n = part_of_speech_tag tok
        ∧ pos_tag_mapping n = None ∧ label_mapping n = None
        ∧ Forall (fun c =>
                    ∃ jc tokc,
                      index c = Some (Z.of_nat jc)
                      ∧ all_tokens !! jc = Some tokc
                      ∧ head_token_index tokc = q
                      ∧ dependency_label tokc ≠ ROOT
                      ∧ label c = dependency_label tokc) (children n).
Proof.
  destruct limit as [|limit]; [done|]. rewrite _create_tree_eq.
  destruct (py_index all_tokens p) as [tok|e] eqn:Htok; [|done].
  rewrite bind_Ok.
  destruct (mapR _ (child_indices all_tokens p)) as [ts|e] eqn:Hts; [|done].
  rewrite bind_Ok. intros [= <-]. split; [done|].
  apply mapR_Forall2 in Hts.
  intros n. rewrite walk_eq. cbn [children].
  intros [->|Hn]%elem_of_cons.
  - exists p, tok.
    cbn [index label content lemma pos_tag children pos_tag_mapping
         label_mapping].
    repeat (split; [done|]).
    eapply built_children_heads; [exact Hts|].
    apply Forall_forall. by intros c [? _]%list_elem_of_filter.
  - apply elem_of_flat_map in Hn as (tc & Htc & Hn).
    destruct (proj1 (list_elem_of_lookup _ _) Htc) as [k Hk].
    destruct (Forall2_lookup_r _ _ _ _ _ Hts Hk) as (c & _ & Hc).
    destruct (_create_tree_invariant limit c tc Hc n Hn)
      as (j & tokj & H1 & H2 & H3 & H4 & H5 & H6 & H7 & H8 & H9).
    exists (Z.of_nat j), tokj.
    rewrite (py_index_nat _ _ _ H2). done.
Qed.

End tree_builder_extras.

Lemma create_tree_index_error_witness :
  _create_tree (E:=language_v1) 3 5 cat_tokens = Raise IndexError
  ∧ _create_tree (E:=language_v1) 3 (-6) cat_tokens = Raise IndexError.
Proof.
  split.
  - apply (create_tree_index_error (E:=language_v1) cat_tokens 2 5).
    right. simpl. lia.
  - apply (create_tree_index_error (E:=language_v1) cat_tokens 2 (-6)).
    left. simpl. lia.
Defined.

Lemma create_tree_self_loop_witness :
  _create_tree (E:=language_v1) 1000 0 self_loop = Raise RecursionError.
Proof.
  apply (create_tree_self_loop (E:=language_v1) self_loop 0).
  split; [by vm_compute|reflexivity].
Defined.

Lemma create_tree_nodes_witness :
  ∃ t, _create_tree (E:=language_v1) 3 (-3) cat_tokens = Ok t
       ∧ index t = Some (-3)
       ∧ ∃ tok, py_index cat_tokens (-3) = Ok tok
                ∧ content t = text_content tok
                ∧ content t = "chased".
Proof.
  destruct (_create_tree (E:=language_v1) 3 (-3) cat_tokens) as [t|e] eqn:Ht;
    [|by vm_compute in Ht].
  exists t.
  destruct (create_tree_nodes (E:=language_v1) cat_tokens 3 (-3) t Ht)
    as [Hidx Hnodes].
  split; [done|]. split; [done|].
  destruct (Hnodes t) as (q & tok & H1 & H2 & _ & H3 & _).
  - rewrite walk_eq. by left.
  - rewrite Hidx in H1. injection H1 as <-.
    exists tok. split; [done|]. split; [done|].
    rewrite H3. vm_compute in H2. by injection H2 as <-.
Defined.

(** ** Printing built trees *)

Lemma extend_statements_ok visit ns :
  Forall (fun n => ∃ l, visit n = Ok l) ns →
  ∀ statements, ∃ l, extend_statements visit ns statements = Ok l.
Proof.
  induction 1 as [|n ns [l Hn] _ IH]; intros statements; simpl.
  - by eexists.
  - rewrite Hn, bind_Ok. apply IH.
Qed.

Lemma _get_tree_statements_ok verbose t :
  (∀ n, n ∈ walk t → pos_tag_mapping n = None ∧ label_mapping n = None) →
  ∀ max_depth depth,
    ∃ l, _get_tree_statements t max_depth depth verbose = Ok l.
Proof.
  induction t as [i l c le p cs pm lm IH] using Tree_ind_nested.
  intros Hmap max_depth depth. rewrite _get_tree_statements_eq.
  destruct (decide (max_depth = Some 0)) as [Hmd|Hmd]; [by eexists|].
  destruct (Hmap (mkTree i l c le p cs pm lm)) as [Hpm Hlm];
    [rewrite walk_eq; by left|].
  cbn [pos_tag_mapping label_mapping] in Hpm, Hlm. subst pm lm.
  assert (∃ repr, get_string_repr (mkTree i l c le p cs None None) verbose
                  = Ok repr) as [repr ->].
  { unfold get_string_repr.
    cbn [pos_tag_mapping label_mapping display_code].
    rewrite !bind_Ok. destruct verbose; by eexists. }
  rewrite bind_Ok. cbn [children]. apply extend_statements_ok.
  rewrite Forall_forall in IH. apply Forall_forall. intros n Hn.
  apply IH; [done|]. intros m Hm. apply Hmap.
  rewrite walk_eq. right. cbn [children]. apply elem_of_flat_map. eauto.
Qed.

(** X10. A tree returned by [_create_tree] carries no display mapping, so
    printing it never fails: [get_printable_tree] returns a string for
    every maximum depth and both verbosity levels, and so does the string
    representation of a Sentence holding it. *)
Theorem built_tree_prints {E : enums} all_tokens limit i t :
  _create_tree limit (Z.of_nat i) all_tokens = Ok t →
  ∀ max_depth verbose,
    (∃ s, get_printable_tree t max_depth verbose = Ok s)
    ∧ (∀ text, ∃ s,
         Sentence_get_string_repr (mkSentence text t) verbose = Ok s).
Proof.
  intros Ht.
  assert (∀ max_depth verbose,
            ∃ s, get_printable_tree t max_depth verbose = Ok s) as Hprint.
  { intros max_depth verbose. unfold get_printable_tree.
    destruct (_get_tree_statements_ok verbose t) with (max_depth := max_depth)
      (depth := 1) as [l ->].
    - intros n Hn.
      destruct (_create_tree_invariant all_tokens limit i t Ht n Hn)
        as (j & tok & _ & _ & _ & _ & _ & _ & Hpm & Hlm & _).
      done.
    - rewrite bind_Ok. by eexists. }
  intros max_depth verbose. split; [apply Hprint|].
  intros text. unfold Sentence_get_string_repr. cbn [root s_content].
  destruct (Hprint None verbose) as [s ->]. rewrite bind_Ok. by eexists.
Qed.

Lemma built_tree_prints_witness :
  ∃ t s, _create_tree (E:=language_v1) 5 2 cat_tokens = Ok t
         ∧ get_printable_tree t (Some 2) true = Ok s.
Proof.
  destruct (_create_tree (E:=language_v1) 5 2 cat_tokens) as [t|e] eqn:Ht;
    [|by vm_compute in Ht].
  destruct (built_tree_prints (E:=language_v1) cat_tokens 5 2 t Ht
              (Some 2) true) as [[s Hs] _].
  by exists t, s.
Defined.

(** ** Tokens across the sentences of a document *)

Lemma snd_zip_sublist {A B} (l : list A) :
  ∀ k : list B, (zip l k).*2 `sublist_of` k.
Proof.
  induction l as [|a l IH]; intros [|b k]; simpl;
    try apply sublist_nil_l.
  apply sublist_skip, IH.
Qed.

Section document_indices.
Context {E : enums}.

Lemma roots_disjoint all_tokens limit r1 r2 y :
  label_at all_tokens r1 = Some ROOT →
  label_at all_tokens r2 = Some ROOT →
  y ∈ subtree_indices all_tokens limit r1 →
  y ∈ subtree_indices all_tokens limit r2 →
  r1 = r2.
Proof.
  intros H1 H2 (m1 & _ & Hb1)%elem_of_subtree_indices
    (m2 & _ & Hb2)%elem_of_subtree_indices.
  pose proof (below_rooted _ _ _ _ Hb1 _ (rooted_root _ _ H1)) as Hr1.
  pose proof (below_rooted _ _ _ _ Hb2 _ (rooted_root _ _ H2)) as Hr2.
  pose proof (rooted_unique_depth _ _ _ Hr1 _ Hr2) as Hm.
  cbn [Nat.add] in Hm. subst m2. by eapply below_unique_top.
Qed.

Lemma built_sentences_indices all_tokens limit (zs : list (string * nat)) ss :
  Forall2 (fun (sr : string * nat) s =>
             (root ← _create_tree limit (Z.of_nat sr.2) all_tokens;
              Ok {| s_content := sr.1; root := root |}) = Ok s) zs ss →
  index <$> visited ss
  = (fun j => Some (Z.of_nat j))
      <$> (zs.*2 ≫= subtree_indices all_tokens limit).
Proof.
  induction 1 as [|sr s zs ss Hs _ IH]; [done|].
  unfold visited in *. cbn [flat_map]. rewrite fmap_cons, bind_cons, !fmap_app.
  rewrite IH. f_equal.
  destruct (_create_tree limit (Z.of_nat sr.2) all_tokens) as [t|e] eqn:Ht;
    [|done].
  rewrite bind_Ok in Hs. injection Hs as <-. cbn [root].
  by apply _create_tree_indices.
Qed.

(** X11. In a Document returned by [create_nlst_document_from_response],
    whatever the token array, no token appears twice: the [index]
    attributes of all the nodes of all the sentence trees are pairwise
    distinct, within a tree and across sentences. *)
Theorem document_indices_distinct response limit doc :
  create_nlst_document_from_response limit response = Ok doc →
  NoDup (index <$> visited (sentences doc)).
Proof.
  unfold create_nlst_document_from_response. cbv zeta.
  rewrite sentence_root_indices_eq.
  destruct (mapR _ (zip (r_sentences response)
                        (root_indices (r_tokens response))))
    as [ss|e] eqn:Hss; [|done].
  rewrite bind_Ok. intros [= <-]. cbn [sentences].
  apply mapR_Forall2 in Hss.
  rewrite (built_sentences_indices _ _ _ _ Hss).
  assert (∀ r, r ∈ (zip (r_sentences response)
                        (root_indices (r_tokens response))).*2 →
               label_at (r_tokens response) r = Some ROOT) as Hroots.
  { intros r Hr. apply elem_of_root_indices.
    eapply elem_of_sublist; [exact Hr|apply snd_zip_sublist]. }
  apply NoDup_fmap_2_strong.
  - intros x y _ _ [= Hxy]. lia.
  - apply NoDup_bind.
    + intros r1 r2 y Hr1 Hr2. apply roots_disjoint; by apply Hroots.
    + intros r Hr. apply (NoDup_subtree_indices _ _ _ 0%nat).
      constructor. by apply Hroots.
    + eapply sublist_NoDup; [|apply snd_zip_sublist].
      apply NoDup_filter, NoDup_seq.
Qed.

End document_indices.

Lemma document_indices_distinct_witness :
  ∃ doc,
    create_nlst_document_from_response (E:=language_v1) 5 cat_response = Ok doc
    ∧ NoDup (index <$> visited (sentences doc)).
Proof.
  destruct (create_nlst_document_from_response (E:=language_v1) 5 cat_response)
    as [doc|e] eqn:Hdoc; [|by vm_compute in Hdoc].
  exists doc. split; [done|].
  exact (document_indices_distinct (E:=language_v1) cat_response 5 doc Hdoc).
Defined.

(** ** The multi-criteria matcher on a document *)

Lemma flat_map_perm_ext {A B} (f g : A → list B) (l : list A) :
  (∀ a, f a ≡ₚ g a) → flat_map f l ≡ₚ flat_map g l.
Proof.
  intros Hfg. induction l as [|a l IH]; [done|].
  cbn [flat_map]. by rewrite Hfg, IH.
Qed.

Lemma flat_map_app_perm {A B} (g h : A → list B) (l : list A) :
  flat_map (fun a => g a ++ h a) l ≡ₚ flat_map g l ++ flat_map h l.
Proof.
  induction l as [|a l IH]; [done|].
  cbn [flat_map]. rewrite IH, <- !app_assoc. f_equiv.
  apply Permutation_app_swap_app.
Qed.

Lemma flat_map_swap {A B C} (f : A → B → list C) (xs : list A) (ys : list B) :
  flat_map (fun x => flat_map (fun y => f x y) ys) xs
  ≡ₚ flat_map (fun y => flat_map (fun x => f x y) xs) ys.
Proof.
  induction xs as [|x xs IH]; cbn [flat_map].
  - by rewrite flat_map_nil_f.
  - rewrite IH. symmetry. apply flat_map_app_perm.
Qed.

Lemma yielded_multi_criteria src ss ls ps rs :
  sentences_of src = Ok ss →
  yielded (find_generic_triples_multi_criteria src ls ps rs)
  = flat_map (fun l => flat_map (fun p =>
      flat_map (fun r => yielded (find_generic_triples src l p r)) rs) ps) ls.
Proof.
  intros Hs. rewrite multi_criteria_chain, gen_chain_returned.
  - cbn [yielded].
    induction ls as [|l ls IHl]; cbn [flat_map]; [done|].
    rewrite flat_map_app, IHl. f_equal.
    clear IHl. induction ps as [|p ps IHp]; cbn [flat_map]; [done|].
    rewrite flat_map_app, IHp. f_equal.
    by rewrite !flat_map_concat_map, map_map.
  - apply (Forall_combinations (fun g => raised g = None)
             (find_generic_triples src)).
    intros l p r. by rewrite (find_generic_triples_sentences _ _ _ _ _ Hs).
Qed.

Lemma yielded_find_generic_triples_document d L P R :
  yielded (find_generic_triples (PyDocument d) L P R)
  = flat_map (fun s => yielded (find_generic_triples (PySentence s) L P R))
             (sentences d).
Proof.
  unfold find_generic_triples. cbn [sentences_of yielded].
  apply flat_map_ext. intros s. cbn [flat_map]. by rewrite app_nil_r.
Qed.

(** X12. On a Document the multi-criteria matcher yields the same triples,
    each as many times, as running it on every sentence in turn, but not in
    that order: its output is grouped by criteria combination first, so it
    is a permutation of the per-sentence concatenation. *)
Theorem find_generic_triples_multi_criteria_document d ls ps rs :
  yielded (find_generic_triples_multi_criteria (PyDocument d) ls ps rs)
  ≡ₚ flat_map (fun s =>
       yielded (find_generic_triples_multi_criteria (PySentence s) ls ps rs))
       (sentences d).
Proof.
  rewrite (yielded_multi_criteria _ (sentences d)) by done.
  transitivity
    (flat_map (fun s => flat_map (fun l => flat_map (fun p =>
       flat_map (fun r => yielded (find_generic_triples (PySentence s) l p r))
         rs) ps) ls) (sentences d)).
  - etrans; [|apply flat_map_swap]. apply flat_map_perm_ext. intros l.
    etrans; [|apply flat_map_swap]. apply flat_map_perm_ext. intros p.
    etrans; [|apply flat_map_swap]. apply flat_map_perm_ext. intros r.
    by rewrite yielded_find_generic_triples_document.
  - apply flat_map_perm_ext. intros s.
    by rewrite (yielded_multi_criteria _ [s]).
Qed.

(** ** ROOT labels in a built document *)

Section document_roots.
Context {E : enums}.

Lemma built_sentence_elem all_tokens limit (zs : list (string * nat)) ss s :
  Forall2 (fun (sr : string * nat) s =>
             (root ← _create_tree limit (Z.of_nat sr.2) all_tokens;
              Ok {| s_content := sr.1; root := root |}) = Ok s) zs ss →
  s ∈ ss →
  ∃ sr, sr ∈ zs ∧ s_content s = sr.1
        ∧ _create_tree limit (Z.of_nat sr.2) all_tokens = Ok (root s).
Proof.
  intros Hall Hs.
  destruct (proj1 (list_elem_of_lookup _ _) Hs) as [k Hk].
  destruct (Forall2_lookup_r _ _ _ _ _ Hall Hk) as (sr & Hsr & Hb).
  exists sr. split; [by eapply list_elem_of_lookup_2|].
  destruct (_create_tree limit (Z.of_nat sr.2) all_tokens) as [t|e]; [|done].
  rewrite bind_Ok in Hb. by injection Hb as <-.
Qed.

(** X13. In a Document returned by [create_nlst_document_from_response]
    the root node of every sentence is labelled ROOT and is built from a
    ROOT-labelled token, and no node of a sentence tree has a child
    labelled ROOT: the ROOT label occurs at the sentence roots only. *)
Theorem document_root_labels response limit doc :
  create_nlst_document_from_response limit response = Ok doc →
  ∀ s, s ∈ sentences doc →
    label (root s) = ROOT
    ∧ (∃ r, index (root s) = Some (Z.of_nat r)
            ∧ r ∈ root_indices (r_tokens response))
    ∧ ∀ n, n ∈ walk (root s) → Forall (fun c => label c ≠ ROOT) (children n).
Proof.
  unfold create_nlst_document_from_response. cbv zeta.
  rewrite sentence_root_indices_eq.
  destruct (mapR _ (zip (r_sentences response)
                        (root_indices (r_tokens response))))
    as [ss|e] eqn:Hss; [|done].
  rewrite bind_Ok. intros [= <-] s Hs. cbn [sentences] in Hs.
  apply mapR_Forall2 in Hss.
  destruct (built_sentence_elem _ _ _ _ _ Hss Hs)
    as ([text r] & Hsr & _ & Hroot).
  cbn [snd] in Hroot. apply elem_of_zip_r in Hsr.
  split; [|split].
  - pose proof (_create_tree_label _ _ _ _ Hroot) as Hl.
    apply elem_of_root_indices in Hsr. congruence.
  - exists r. split; [|done].
    apply _create_tree_node in Hroot as (tok & _ & -> & _). done.
  - intros n Hn.
    destruct (_create_tree_invariant _ _ _ _ Hroot n Hn)
      as (j & tok & _ & _ & _ & _ & _ & _ & _ & _ & Hch).
    eapply Forall_impl; [exact Hch|].
    intros c (jc & tokc & _ & _ & _ & Hne & Hl). congruence.
Qed.

End document_roots.

Lemma document_root_labels_witness :
  ∃ doc,
    create_nlst_document_from_response (E:=language_v1) 5 cat_response = Ok doc
    ∧ ∀ s, s ∈ sentences doc → label (root s) = 54.
Proof.
  destruct (create_nlst_document_from_response (E:=language_v1) 5 cat_response)
    as [doc|e] eqn:Hdoc; [|by vm_compute in Hdoc].
  exists doc. split; [done|]. intros s Hs.
  by destruct (document_root_labels (E:=language_v1) cat_response 5 doc Hdoc
                 s Hs) as [Hl _].
Defined.

(** ** Printing a built document *)

Lemma document_loop_outcome verbose ss :
  ∀ ret,
    (∃ out,
       (fix loop (ss : list Sentence) (ret : string) : result string :=
          match ss with
          | [] => Ok ret
          | s :: ss' =>
              repr ← Sentence_get_string_repr s verbose;
              loop ss' (ret +:+ repr +:+ newline +:+ str_mul "-" 20 +:+ newline)
          end) ss ret = Ok out)
    ↔ Forall (fun s => ∃ r, Sentence_get_string_repr s verbose = Ok r) ss.
Proof.
  induction ss as [|s ss IH]; intros ret.
  - split; [constructor|by eexists].
  - rewrite Forall_cons.
    destruct (Sentence_get_string_repr s verbose) as [r|e] eqn:Hs.
    + rewrite bind_Ok, IH. split; [|tauto]. split; [by eexists|done].
    + rewrite bind_Raise. split; [by intros [out ?]|].
      by intros [[r ?] _].
Qed.

Lemma built_tree_printable {E : enums} all_tokens limit i t verbose :
  _create_tree limit (Z.of_nat i) all_tokens = Ok t →
  ∃ s, get_printable_tree t None verbose = Ok s.
Proof.
  intros Ht. unfold get_printable_tree.
  destruct (_get_tree_statements_ok verbose t) with (max_depth := @None Z)
    (depth := 1) as [l ->].
  - intros n Hn.
    destruct (_create_tree_invariant all_tokens limit i t Ht n Hn)
      as (j & tok & _ & _ & _ & _ & _ & _ & Hpm & Hlm & _).
    done.
  - rewrite bind_Ok. by eexists.
Qed.

(** X14. The string representation of a Document is returned exactly when
    the representation of each of its sentences is (the first failing
    sentence aborts it), and for a Document returned by
    [create_nlst_document_from_response] it is always returned. *)
Theorem document_string_repr {E : enums} verbose :
  (∀ d, (∃ out, Document_get_string_repr d verbose = Ok out)
        ↔ Forall (fun s => ∃ r, Sentence_get_string_repr s verbose = Ok r)
                 (sentences d))
  ∧ (∀ response limit doc,
       create_nlst_document_from_response limit response = Ok doc →
       ∃ out, Document_get_string_repr doc verbose = Ok out).
Proof.
  assert (∀ d, (∃ out, Document_get_string_repr d verbose = Ok out)
               ↔ Forall (fun s => ∃ r, Sentence_get_string_repr s verbose = Ok r)
                        (sentences d)) as Hiff.
  { intros d. unfold Document_get_string_repr. cbv zeta.
    apply document_loop_outcome. }
  split; [done|].
  intros response limit doc Hdoc. apply Hiff.
  revert Hdoc. unfold create_nlst_document_from_response. cbv zeta.
  rewrite sentence_root_indices_eq.
  destruct (mapR _ (zip (r_sentences response)
                        (root_indices (r_tokens response))))
    as [ss|e] eqn:Hss; [|done].
  rewrite bind_Ok. intros [= <-]. cbn [sentences].
  apply mapR_Forall2 in Hss. apply Forall_forall. intros s Hs.
  destruct (built_sentence_elem _ _ _ _ _ Hss Hs) as (sr & _ & _ & Hroot).
  unfold Sentence_get_string_repr.
  destruct (built_tree_printable _ _ _ _ verbose Hroot) as [out ->].
  rewrite bind_Ok. by eexists.
Qed.

(** ** Every token in exactly one node *)

Section document_cover.
Context {E : enums}.

Lemma reaches_root_below all_tokens fuel :
  ∀ i, reaches_root all_tokens fuel i = true →
    ∃ r m, label_at all_tokens r = Some ROOT ∧ below all_tokens r m i.
Proof.
  induction fuel as [|fuel IH]; intros i; cbn [reaches_root];
    intros [Hi%bool_decide_eq_true|Hstep]%orb_true_iff.
  - exists i, 0%nat. split; [done|constructor].
  - done.
  - exists i, 0%nat. split; [done|constructor].
  - destruct (decide (label_at all_tokens i = Some ROOT)) as [Hl|Hl];
      [exists i, 0%nat; split; [done|constructor]|].
    destruct (head_at all_tokens i) as [h|] eqn:Hh; [|done].
    apply andb_true_iff in Hstep as [Hh0%bool_decide_eq_true Hstep].
    destruct (IH _ Hstep) as (r & m & Hr & Hm).
    exists r, (S m). split; [done|].
    eapply below_snoc; [exact Hm|]. split; [done|].
    rewrite Hh. f_equal. lia.
Qed.

Lemma NoDup_roots_bind all_tokens limit rs :
  rs `sublist_of` root_indices all_tokens →
  NoDup (rs ≫= subtree_indices all_tokens limit).
Proof.
  intros Hsub.
  assert (∀ r, r ∈ rs → label_at all_tokens r = Some ROOT) as Hroots.
  { intros r Hr. apply elem_of_root_indices. by eapply elem_of_sublist. }
  apply NoDup_bind.
  - intros r1 r2 y Hr1 Hr2. apply roots_disjoint; by apply Hroots.
  - intros r Hr. apply (NoDup_subtree_indices _ _ _ 0%nat).
    constructor. by apply Hroots.
  - eapply sublist_NoDup; [|exact Hsub]. apply NoDup_filter, NoDup_seq.
Qed.

(** X15. When the head references form a forest (every token reaches a
    ROOT-labelled token) and there are at least as many sentence texts as
    ROOT tokens, document assembly, given enough depth of recursion,
    returns a Document in which every token of the response is the [index]
    of exactly one node: the indices of all nodes of all sentence trees are
    a permutation of [0 .. N-1]. The depth is counted in nested calls of
    [_create_tree]: as many as there are tokens are enough. *)
Theorem document_covers_tokens response limit :
  forest (r_tokens response) = true →
  (length (root_indices (r_tokens response))
   ≤ length (r_sentences response))%nat →
  (length (r_tokens response) ≤ limit)%nat →
  ∃ doc,
    create_nlst_document_from_response limit response = Ok doc
    ∧ index <$> visited (sentences doc)
      ≡ₚ (fun j => Some (Z.of_nat j)) <$> seq 0 (length (r_tokens response)).
Proof.
  intros Hforest Hlen Hlim.
  unfold create_nlst_document_from_response. cbv zeta.
  rewrite sentence_root_indices_eq.
  destruct (mapR_exists
    (fun sr : string * nat =>
       root ← _create_tree limit (Z.of_nat sr.2) (r_tokens response);
       Ok {| s_content := sr.1; root := root |})
    (zip (r_sentences response) (root_indices (r_tokens response))))
    as [ss Hss].
  { intros [text r] Hr%elem_of_zip_r.
    apply elem_of_root_indices in Hr.
    destruct (_create_tree_terminates (r_tokens response) limit r 0)
      as [t Ht]; [by constructor|lia|].
    cbn [fst snd]. rewrite Ht, bind_Ok. by eexists. }
  rewrite Hss, bind_Ok. eexists. split; [done|]. cbn [sentences].
  apply mapR_Forall2 in Hss.
  rewrite (built_sentences_indices _ _ _ _ Hss), snd_zip by done.
  apply fmap_Permutation, NoDup_Permutation.
  - by apply NoDup_roots_bind.
  - apply NoDup_seq.
  - intros j. rewrite list_elem_of_bind, elem_of_seq. split.
    + intros (r & (m & _ & Hm)%elem_of_subtree_indices
                & Hr%elem_of_root_indices).
      pose proof (rooted_lt _ _ _
                    (below_rooted _ _ _ _ Hm _ (rooted_root _ _ Hr))).
      lia.
    + intros [_ Hj]. unfold forest in Hforest.
      rewrite forallb_forall in Hforest.
      destruct (reaches_root_below (r_tokens response)
                  (length (r_tokens response)) j) as (r & m & Hr & Hm).
      { apply Hforest, list_elem_of_In, elem_of_seq. lia. }
      exists r. split; [|by apply elem_of_root_indices].
      apply elem_of_subtree_indices. exists m. split; [|done].
      pose proof (rooted_depth_bound _ _ _
                    (below_rooted _ _ _ _ Hm _ (rooted_root _ _ Hr))).
      lia.
Qed.

End document_cover.

Lemma document_covers_tokens_witness :
  ∃ doc,
    create_nlst_document_from_response (E:=language_v1) 5 cat_response = Ok doc
    ∧ index <$> visited (sentences doc)
      ≡ₚ [Some 0; Some 1; Some 2; Some 3; Some 4].
Proof.
  destruct (document_covers_tokens (E:=language_v1) cat_response 5)
    as (doc & H1 & H2).
  - reflexivity.
  - simpl. lia.
  - simpl. lia.
  - exists doc. split; [done|exact H2].
Defined.

(** ** Negative token indices *)

(** X16. A negative index in range is accepted as Python indexing from
    the end, but not treated as the position it denotes: when no head index
    is negative, [_create_tree] at [p] with [-N <= p < 0] returns the node
    of token [N + p] with [index = p] and no child at all, even if that
    token has dependents. *)
Theorem create_tree_negative_index {E : enums} all_tokens limit p tok :
  - Z.of_nat (length all_tokens) ≤ p < 0 →
  all_tokens !! Z.to_nat (p + Z.of_nat (length all_tokens)) = Some tok →
  Forall (fun t => 0 ≤ head_token_index t) all_tokens →
  _create_tree (S limit) p all_tokens
  = Ok {| index := Some p;
          label := dependency_label tok;
          content := text_content tok;
          lemma := t_lemma tok;
          pos_tag := part_of_speech_tag tok;
          children := [];
          pos_tag_mapping := None;
          label_mapping := None |}.
Proof.
  intros Hp Htok Hheads. rewrite _create_tree_eq.
  assert (py_index all_tokens p = Ok tok) as ->.
  { unfold py_index. cbv zeta.
    rewrite (decide_True (P := p < 0)) by lia.
    rewrite decide_True by lia. by rewrite Htok. }
  rewrite bind_Ok.
  assert (child_indices all_tokens p = []) as ->; [|done].
  apply filter_none. intros c _ [_ Hc]. unfold head_at in Hc.
  destruct (all_tokens !! c) as [t|] eqn:Ht; [|done].
  rewrite Forall_forall in Hheads.
  pose proof (Hheads t (list_elem_of_lookup_2 _ _ _ Ht)).
  injection Hc as Hc. lia.
Qed.

Lemma create_tree_negative_index_witness :
  _create_tree (E:=language_v1) 3 (-3) cat_tokens
  = Ok (mkTree (Some (-3)) 54 "chased" "chase" 11 [] None None).
Proof.
  apply (create_tree_negative_index (E:=language_v1) cat_tokens 2 (-3)
           (mkToken "chased" "chase" 11 2 54)).
  - simpl. lia.
  - reflexivity.
  - repeat constructor; simpl; lia.
Defined.
